(** * iMobileDeviceConnection: directory listing, metadata and unused-name
    allocation over the AFC client (src/devices, imobiledeviceconnection).

    The development embeds [GetFileInfo], [Exists], [ReadDirectory] and
    [GetUnusedFilename] as state-passing functions over an abstract AFC
    device and pseudo-random generator, and records every call made to the
    device, to [qrand] and to [qWarning] in a trace. *)

From Stdlib Require Import ZArith List String Ascii Bool Lia DecimalString.
Import ListNotations.
Local Open Scope string_scope.
Local Open Scope Z_scope.

(** ** QString

    A [QString] is either null ([QString()]) or holds characters; the empty
    string is not null.  [None] is the null string.  Characters are
    modelled as [ascii]; [QString::fromUtf8] of a non-NULL C string is never
    null (for the empty C string Qt 4 yields the shared empty string). *)

Definition QString := option string.

Definition fromUtf8 (p : string) : QString := Some p.

Definition isNull (q : QString) : bool :=
  match q with None => true | Some _ => false end.

(** [QString::operator==] against a literal compares characters; the null
    string compares equal to the empty one. *)
Definition qeq (q : QString) (lit : string) : bool :=
  match q with
  | None => String.eqb EmptyString lit
  | Some s => String.eqb s lit
  end.

(** ** The AFC client, [qrand] and the trace *)

Definition afc_error_t := Z.
Definition AFC_E_SUCCESS : afc_error_t := 0.

(** What [afc_get_file_info] and [afc_read_directory] hand back: the error
    code and the [char**] out-parameter ([None] when it is left NULL,
    otherwise the strings before the terminating NULL). *)
Record afc_reply := {
  afc_err : afc_error_t;
  afc_list : option (list string)
}.

(** The device and the generator are external: a device state answers a
    request and moves to a next state (so answers may change between two
    requests), [qrand] returns a non-negative int and advances its seed. *)
Class Platform := {
  Device : Type;
  afc_get_file_info : Device -> string -> afc_reply * Device;
  afc_read_directory : Device -> string -> afc_reply * Device;
  Rng : Type;
  qrand : Rng -> N * Rng
}.

Inductive Event :=
| EvReadDirectory (path : string)
| EvGetFileInfo (path : string)
| EvQRand
| EvWarning (items : list string).

Record State `{Platform} := mkState {
  dev : Device;
  rng : Rng;
  trace : list Event
}.

Section Connection.
Context `{P : Platform}.

Definition M (A : Type) : Type := State -> A * State.

Definition ret {A} (a : A) : M A := fun st => (a, st).

Definition bind {A B} (m : M A) (k : A -> M B) : M B :=
  fun st => let (a, st') := m st in k a st'.

Definition emit (e : Event) (st : State) : State :=
  mkState _ (dev st) (rng st) (trace st ++ [e])%list.

Definition call_afc_get_file_info (path : string) : M afc_reply :=
  fun st =>
    let (r, d) := afc_get_file_info (dev st) path in
    (r, mkState _ d (rng st) (trace st ++ [EvGetFileInfo path])).

Definition call_afc_read_directory (path : string) : M afc_reply :=
  fun st =>
    let (r, d) := afc_read_directory (dev st) path in
    (r, mkState _ d (rng st) (trace st ++ [EvReadDirectory path])).

Definition call_qrand : M Z :=
  fun st =>
    let (n, g) := qrand (rng st) in
    (Z.of_N n, mkState _ (dev st) g (trace st ++ [EvQRand])).

Definition qWarning (items : list string) : M unit :=
  fun st => (tt, emit (EvWarning items) st).

End Connection.

Notation "x <- m ;; k" := (bind m (fun x => k))
  (at level 61, m at next level, right associativity).

Section GetFileInfo.
Context `{P : Platform}.

(** The loop of [GetFileInfo] over the key/value list: entries alternate
    between keys and values, [last_key] is null when a key is expected. *)
Fixpoint scan_infolist (key : string) (last_key ret_ : QString)
         (p : list string) : QString :=
  match p with
  | [] => ret_
  | x :: p' =>
      match last_key with
      | None => scan_infolist key (fromUtf8 x) ret_ p'
      | Some k =>
          scan_infolist key None
            (if String.eqb k key then fromUtf8 x else ret_) p'
      end
  end.

Definition GetFileInfo (path key : string) : M QString :=
  r <- call_afc_get_file_info path ;;
  match afc_list r with
  | Some infolist =>
      if negb (afc_err r =? AFC_E_SUCCESS) then ret None
      else ret (scan_infolist key None None infolist)
  | None => ret None
  end.

Definition Exists (path : string) : M bool :=
  v <- GetFileInfo path "st_ifmt" ;;
  ret (negb (isNull v)).

End GetFileInfo.

(** ** QDir::Filters

    The flag values are Qt's ([qdir.h]); [QDir::Filters] wraps an int. *)
Module QDir.
Definition Dirs : Z := 0x001.
Definition Files : Z := 0x002.
Definition NoSymLinks : Z := 0x008.
Definition Hidden : Z := 0x100.
Definition NoDotAndDotDot : Z := 0x1000.
Definition NoFilter : Z := -1.
End QDir.

(** [filters & flag] used as a condition. *)
Definition testFlag (filters flag : Z) : bool :=
  negb (Z.land filters flag =? 0).

Definition startsWith (s pre : string) : bool := String.prefix pre s.

Section ReadDirectory.
Context `{P : Platform}.

(** The body of the [for] loop of [ReadDirectory], [ret_] being the list
    built so far. *)
Fixpoint read_entries (path : string) (filters : Z) (names : list string)
         (ret_ : list string) : M (list string) :=
  match names with
  | [] => ret ret_
  | filename :: p =>
      if filters =? QDir.NoFilter then
        read_entries path filters p (ret_ ++ [filename])%list
      else if testFlag filters QDir.NoDotAndDotDot
                && (String.eqb filename "." || String.eqb filename "..") then
        read_entries path filters p ret_
      else if negb (testFlag filters QDir.Hidden)
                && startsWith filename "." then
        read_entries path filters p ret_
      else
        filetype <- GetFileInfo (path ++ "/" ++ filename) "st_ifmt" ;;
        if (qeq filetype "S_IFREG" && testFlag filters QDir.Files)
           || (qeq filetype "S_IFDIR" && testFlag filters QDir.Dirs)
           || (qeq filetype "S_IFLNK"
               && negb (testFlag filters QDir.NoSymLinks)) then
          read_entries path filters p (ret_ ++ [filename])%list
        else
          read_entries path filters p ret_
  end.

Definition ReadDirectory (path : string) (filters : Z) : M (list string) :=
  r <- call_afc_read_directory path ;;
  match afc_list r with
  | Some names =>
      if negb (afc_err r =? AFC_E_SUCCESS) then ret []
      else read_entries path filters names []
  | None => ret []
  end.

End ReadDirectory.

(** ** Formatting, sections and case *)

Definition decimal (n : Z) : string :=
  NilZero.string_of_uint (N.to_uint (Z.to_N n)).

Fixpoint zeros (k : nat) (s : string) : string :=
  match k with
  | O => s
  | S k' => String "0" (zeros k' s)
  end.

(** The conversion [%0<width>d] of [sprintf]. *)
Definition format_0d (width : nat) (n : Z) : string :=
  if n <? 0 then
    let d := decimal (- n) in
    String "-" (zeros (width - 1 - String.length d) d)
  else
    let d := decimal n in
    zeros (width - String.length d) d.

(** [QString::split(sep)] keeping empty parts. *)
Fixpoint split (sep : ascii) (s : string) : list string :=
  match s with
  | EmptyString => [EmptyString]
  | String c s' =>
      if Ascii.eqb c sep then EmptyString :: split sep s'
      else match split sep s' with
           | [] => [String c EmptyString]
           | x :: xs => String c x :: xs
           end
  end.

Fixpoint join (sep : ascii) (l : list string) : string :=
  match l with
  | [] => EmptyString
  | [x] => x
  | x :: l' => x ++ String sep (join sep l')
  end.

(** [QString::section(sep, start, end)] with the default flags: fields are
    numbered from 0, negative indexes count from the last field. *)
Definition section (sep : ascii) (start end_ : Z) (s : string) : string :=
  let sections := split sep s in
  let count := Z.of_nat (List.length sections) in
  let start := if start <? 0 then start + count else start in
  let end_ := if end_ <? 0 then end_ + count else end_ in
  let first := Z.max 0 start in
  join sep (firstn (Z.to_nat (end_ - first + 1))
                   (skipn (Z.to_nat first) sections)).

(** [QString::toLower], on the letters of ASCII; other characters are
    left as they are. *)
Definition toLower_char (c : ascii) : ascii :=
  let n := N_of_ascii c in
  if ((65 <=? n) && (n <=? 90))%N then ascii_of_N (n + 32) else c.

Fixpoint toLower (s : string) : string :=
  match s with
  | EmptyString => EmptyString
  | String c s' => String (toLower_char c) (toLower s')
  end.

Definition isEmpty (s : string) : bool := String.eqb s EmptyString.

(** ** GetUnusedFilename *)

(** [total_musicdirs] and [dir_num] are C++ ints: [%] truncates ([Z.rem]),
    and incrementing [INT_MAX] is undefined. *)
Definition INT_MAX : Z := 2147483647.
Definition kRandMax : Z := 999999.

(** Of [Song] only [filename()] is used. *)
Record Song := { filename : string }.

Definition musicdir (n : Z) : string :=
  "/iTunes_Control/Music/F" ++ format_0d 2 n.

Definition candidate (n : Z) (extension : string) : string :=
  ("libgpod" ++ format_0d 6 n) ++ "." ++ extension.

Section GetUnusedFilename.
Context `{P : Platform}.

(** The first loop, which counts the [F..] directories.  It has no bound in
    the source: [fuel] bounds the iterations here and [None] stands for a
    run that has not left the loop, or that would increment the int past
    [INT_MAX]. *)
Fixpoint count_musicdirs (fuel : nat) (total_musicdirs : Z)
  : State -> option (Z * State) :=
  match fuel with
  | O => fun _ => None
  | S fuel' => fun st =>
      let (e, st1) := Exists (musicdir total_musicdirs) st in
      if negb e then Some (total_musicdirs, st1)
      else if total_musicdirs =? INT_MAX then None
      else count_musicdirs fuel' (total_musicdirs + 1) st1
  end.

(** The [forever] loop, which draws candidate names until one is unused. *)
Fixpoint find_unused (fuel : nat) (dir extension : string)
  : State -> option (string * State) :=
  match fuel with
  | O => fun _ => None
  | S fuel' => fun st =>
      let (r, st1) := call_qrand st in
      let filename := candidate (Z.rem r kRandMax) extension in
      let (e, st2) := Exists (dir ++ "/" ++ filename) st1 in
      if negb e then Some (filename, st2)
      else find_unused fuel' dir extension st2
  end.

Definition extension_of (metadata : Song) : string :=
  let extension := toLower (section "." (-1) (-1) (filename metadata)) in
  if isEmpty extension then "mp3" else extension.

Definition no_musicdirs_warning : list string :=
  ["No 'F..'' directories found on iPod"].

Definition missing_musicdir_warning (dir : string) : list string :=
  ["Music directory doesn't exist:"; dir].

(** What follows the counting loop once [total_musicdirs] is known. *)
Definition pick_and_name (fuel : nat) (metadata : Song) (total_musicdirs : Z)
  : State -> option (QString * State) :=
  fun st1 =>
    if total_musicdirs <=? 0 then
      Some (None, snd (qWarning no_musicdirs_warning st1))
    else
      let (r, st2) := call_qrand st1 in
      let dir_num := Z.rem r total_musicdirs in
      let dir := musicdir dir_num in
      let (e, st3) := Exists dir st2 in
      if negb e then
        Some (None, snd (qWarning (missing_musicdir_warning dir) st3))
      else
        match find_unused fuel dir (extension_of metadata) st3 with
        | None => None
        | Some (filename, st4) => Some (Some (dir ++ "/" ++ filename), st4)
        end.

Definition GetUnusedFilename (fuel : nat) (metadata : Song)
  : State -> option (QString * State) :=
  fun st =>
    match count_musicdirs fuel 0 st with
    | None => None
    | Some (total_musicdirs, st1) =>
        pick_and_name fuel metadata total_musicdirs st1
    end.

End GetUnusedFilename.

(** ** The listing policy in the specification's terms

    The specification describes [ReadDirectory] through an entry kind, a
    [ListingFilter] and a per-name policy.  These definitions follow its
    wording; the theorems below relate them to the code. *)

Inductive Kind := File | Directory | Symlink | Unknown.

Definition Kind_eqb (a b : Kind) : bool :=
  match a, b with
  | File, File | Directory, Directory
  | Symlink, Symlink | Unknown, Unknown => true
  | _, _ => false
  end.

Record ListingFilter := {
  includeHidden : bool;
  includeDotEntries : bool;
  kindMask : list Kind
}.

Definition in_mask (k : Kind) (mask : list Kind) : bool :=
  existsb (Kind_eqb k) mask.

(** The raw type tokens of the device mapped to the four kinds. *)
Definition kind_of_token (filetype : QString) : Kind :=
  if qeq filetype "S_IFREG" then File
  else if qeq filetype "S_IFDIR" then Directory
  else if qeq filetype "S_IFLNK" then Symlink
  else Unknown.

(** The filter a [QDir::Filters] value stands for. *)
Definition filter_of (filters : Z) : ListingFilter :=
  {| includeHidden := testFlag filters QDir.Hidden;
     includeDotEntries := negb (testFlag filters QDir.NoDotAndDotDot);
     kindMask :=
       ((if testFlag filters QDir.Files then [File] else [])
        ++ (if testFlag filters QDir.Dirs then [Directory] else [])
        ++ (if testFlag filters QDir.NoSymLinks then [] else [Symlink]))%list
  |}.

Definition is_dot_entry (name : string) : bool :=
  String.eqb name "." || String.eqb name "..".

(** Key/value pairs of a metadata list; a trailing key without a value
    is no pair. *)
Fixpoint pairs (l : list string) : list (string * string) :=
  match l with
  | k :: v :: l' => (k, v) :: pairs l'
  | _ => []
  end.

Definition has_value (key : string) (l : list string) : bool :=
  existsb (fun kv => String.eqb (fst kv) key) (pairs l).

(** The query succeeded and its result holds a value for [key]. *)
Definition reply_has_value (key : string) (r : afc_reply) : bool :=
  match afc_list r with
  | Some l => (afc_err r =? AFC_E_SUCCESS) && has_value key l
  | None => false
  end.

Definition reply_failed (r : afc_reply) : bool :=
  match afc_list r with
  | Some _ => negb (afc_err r =? AFC_E_SUCCESS)
  | None => true
  end.

(** [xs] is [ys] with some elements left out, order kept. *)
Fixpoint subseq (xs ys : list string) : bool :=
  match xs, ys with
  | [], _ => true
  | _ :: _, [] => false
  | x :: xs', y :: ys' =>
      if String.eqb x y then subseq xs' ys' else subseq xs ys'
  end.

Section Policy.
Context `{P : Platform}.

Definition classify (path : string) : M Kind :=
  filetype <- GetFileInfo path "st_ifmt" ;;
  ret (kind_of_token filetype).

Fixpoint listing_policy (path : string) (f : ListingFilter)
         (raw : list string) : M (list string) :=
  match raw with
  | [] => ret []
  | name :: rest =>
      if negb (includeDotEntries f) && is_dot_entry name then
        listing_policy path f rest
      else if negb (includeHidden f) && startsWith name "." then
        listing_policy path f rest
      else
        k <- classify (path ++ "/" ++ name) ;;
        kept <- listing_policy path f rest ;;
        ret (if in_mask k (kindMask f) then name :: kept else kept)
  end.

Definition listDirectory (path : string) (f : ListingFilter)
  : M (list string) :=
  r <- call_afc_read_directory path ;;
  if reply_failed r then ret []
  else listing_policy path f (match afc_list r with
                              | Some raw => raw
                              | None => []
                              end).

(** What [GetFileInfo] makes of a reply. *)
Definition info_value (key : string) (r : afc_reply) : QString :=
  match afc_list r with
  | Some infolist =>
      if negb (afc_err r =? AFC_E_SUCCESS) then None
      else scan_infolist key None None infolist
  | None => None
  end.

(** A metadata request does not change what the device holds. *)
Definition quiescent : Prop :=
  forall d p, snd (afc_get_file_info d p) = d.

End Policy.

(** ** Two concrete devices *)

Module Demo.

Definition info (fmt : string) : afc_reply :=
  {| afc_err := AFC_E_SUCCESS;
     afc_list := Some ["st_size"; "68"; "st_ifmt"; fmt] |}.

(** A successful reply without a file type. *)
Definition bare : afc_reply :=
  {| afc_err := AFC_E_SUCCESS; afc_list := Some ["st_size"; "68"] |}.

(** AFC_E_OBJECT_NOT_FOUND, nothing handed back. *)
Definition not_found : afc_reply :=
  {| afc_err := 8; afc_list := None |}.

Definition files : list (string * afc_reply) :=
  [ ("/iTunes_Control/Music/F00", info "S_IFDIR");
    ("/iTunes_Control/Music/F01", info "S_IFDIR");
    ("/iTunes_Control/Music/F01/libgpod000007.ogg", info "S_IFREG");
    ("/music/.", info "S_IFDIR");
    ("/music/..", info "S_IFDIR");
    ("/music/.cache", info "S_IFDIR");
    ("/music/a.mp3", info "S_IFREG");
    ("/music/sub", info "S_IFDIR");
    ("/music/link", info "S_IFLNK");
    ("/music/nofmt", bare) ].

Fixpoint lookup (path : string) (l : list (string * afc_reply)) : afc_reply :=
  match l with
  | [] => not_found
  | (p, r) :: l' => if String.eqb p path then r else lookup path l'
  end.

Definition listing (path : string) : afc_reply :=
  if String.eqb path "/music" then
    {| afc_err := AFC_E_SUCCESS;
       afc_list := Some ["."; ".."; ".cache"; "a.mp3"; "sub"; "link";
                         "nofmt"; "ghost"] |}
  else if String.eqb path "/empty" then
    {| afc_err := AFC_E_SUCCESS; afc_list := Some [] |}
  else not_found.

(** The generator replays a fixed list of values. *)
Definition replay (g : list N) : N * list N :=
  match g with
  | [] => (0%N, [])
  | x :: g' => (x, g')
  end.

(** A device whose content never changes. *)
Definition still : Platform :=
  {| Device := unit;
     afc_get_file_info := fun d path => (lookup path files, d);
     afc_read_directory := fun d path => (listing path, d);
     Rng := list N;
     qrand := replay |}.

(** A device that counts the requests it has answered: [F00] is there for
    the first request only and gone afterwards. *)
Definition vanishing : Platform :=
  {| Device := nat;
     afc_get_file_info := fun d path =>
       (if Nat.eqb d 0 && String.eqb path "/iTunes_Control/Music/F00"
        then info "S_IFDIR" else not_found, S d);
     afc_read_directory := fun d path => (not_found, S d);
     Rng := list N;
     qrand := replay |}.

Definition still0 : @State still := @mkState still tt [3; 7; 1000006; 12]%N [].
Definition vanishing0 : @State vanishing := @mkState vanishing O [5%N] [].
Definition vanished0 : @State vanishing := @mkState vanishing 1%nat [5%N] [].
Definition track : Song := {| filename := "/home/me/Track.OGG" |}.

End Demo.

(** ** Further notions used to describe the code *)

(** The value of the last key/value pair carrying [key]. *)
Fixpoint last_value (key : string) (kvs : list (string * string)) : QString :=
  match kvs with
  | [] => None
  | (k, v) :: rest =>
      match last_value key rest with
      | Some w => Some w
      | None => if String.eqb k key then Some v else None
      end
  end.

(** The two name tests of [ReadDirectory] that come before the metadata
    request: a name that fails one of them is skipped without a request. *)
Definition survives (filters : Z) (filename : string) : bool :=
  negb (testFlag filters QDir.NoDotAndDotDot
        && (String.eqb filename "." || String.eqb filename ".."))
  && negb (negb (testFlag filters QDir.Hidden) && startsWith filename ".").

(** The type test of [ReadDirectory]. *)
Definition accepts (filters : Z) (filetype : QString) : bool :=
  (qeq filetype "S_IFREG" && testFlag filters QDir.Files)
  || (qeq filetype "S_IFDIR" && testFlag filters QDir.Dirs)
  || (qeq filetype "S_IFLNK" && negb (testFlag filters QDir.NoSymLinks)).

(** The requests of the [forever] loop for the candidate numbers [ns]. *)
Definition draw_events (dir extension : string) (ns : list Z) : list Event :=
  flat_map (fun n => [EvQRand;
                      EvGetFileInfo (dir ++ "/" ++ candidate n extension)])
           ns.

(** The requests of the counting loop when it stops at [n]. *)
Definition probe_events (n : Z) : list Event :=
  map (fun k => EvGetFileInfo (musicdir (Z.of_nat k)))
      (seq 0 (S (Z.to_nat n))).

(** Reading a decimal numeral back, leading zeros allowed. *)
Definition read_decimal (s : string) : option Z :=
  option_map (fun d => Z.of_N (N.of_uint d)) (NilEmpty.uint_of_string s).

(** ** The choice of the bucket *)

(** The index [qrand() % total_musicdirs] for the drawn value [r]. *)
Definition bucket_index (r total_musicdirs : Z) : Z :=
  Z.rem r total_musicdirs.

(** How many of the generator values [0 .. M-1] lead to bucket [i]. *)
Fixpoint bucket_hits (M : nat) (total_musicdirs i : Z) : nat :=
  match M with
  | O => O
  | S m =>
      Nat.add (bucket_hits m total_musicdirs i)
              (if bucket_index (Z.of_nat m) total_musicdirs =? i
               then 1%nat else 0%nat)
  end.

(** The choice among [total_musicdirs] buckets is uniform when each bucket
    is reached from equally many of the [M] values the generator can
    return, those values being taken as equally likely. *)
Definition uniform_choice (M : nat) (total_musicdirs : Z) : Prop :=
  forall i j,
    0 <= i < total_musicdirs -> 0 <= j < total_musicdirs ->
    bucket_hits M total_musicdirs i = bucket_hits M total_musicdirs j.

(** ** Opening and closing the connection

    The constructor obtains a device handle, a lockdown client, the port of
    the AFC service and an AFC client, in that order, from libimobiledevice;
    the destructor gives them back.  A call is modelled by what it returns
    and what it leaves in its out-parameter ([None] for a pointer left
    NULL); the calls made are recorded in a log. *)

Definition handle := nat.

Class Services := {
  idevice_new : string -> Z * option handle;
  lockdownd_client_new_with_handshake :
    option handle -> string -> Z * option handle;
  lockdownd_start_service : option handle -> string -> Z * Z;
  afc_client_new : option handle -> Z -> Z * option handle
}.

Definition IDEVICE_E_SUCCESS : Z := 0.
Definition LOCKDOWN_E_SUCCESS : Z := 0.

Inductive LifeEvent :=
| Call_idevice_new (uuid : string)
| Call_lockdownd_client_new_with_handshake (device : option handle)
                                           (label : string)
| Call_lockdownd_start_service (lockdown : option handle) (service : string)
| Call_afc_client_new (device : option handle) (port : Z)
| Warned (what : string) (err : Z)
| Call_afc_client_free (h : handle)
| Call_lockdownd_client_free (h : handle)
| Call_idevice_free (h : handle).

(** The members the constructor initialises. *)
Record Members := {
  device_ : option handle;
  lockdown_ : option handle;
  afc_ : option handle;
  afc_port_ : Z;
  broken_ : bool
}.

Section Lifetime.
Context `{Sv : Services}.

(** [iMobileDeviceConnection::iMobileDeviceConnection(uuid)].  [label] is
    the string the handshake reads through the pointer it is handed.  The
    source takes [constData()] of a temporary [QByteArray] that is gone
    when the call is made, so that string need not be the application
    name: it is left arbitrary here, and a fault on reading it is not
    represented. *)
Definition iMobileDeviceConnection_new (uuid label : string)
  : Members * list LifeEvent :=
  let (err, device) := idevice_new uuid in
  let log1 := [Call_idevice_new uuid] in
  if negb (err =? IDEVICE_E_SUCCESS) then
    ({| device_ := device; lockdown_ := None; afc_ := None;
        afc_port_ := 0; broken_ := false |},
     log1 ++ [Warned "idevice error:" err])%list
  else
    let (lockdown_err, lockdown) :=
      lockdownd_client_new_with_handshake device label in
    let log2 :=
      (log1 ++ [Call_lockdownd_client_new_with_handshake device label])%list in
    if negb (lockdown_err =? LOCKDOWN_E_SUCCESS) then
      ({| device_ := device; lockdown_ := lockdown; afc_ := None;
          afc_port_ := 0; broken_ := false |},
       log2 ++ [Warned "lockdown error:" lockdown_err])%list
    else
      let (lockdown_err, port) :=
        lockdownd_start_service lockdown "com.apple.afc" in
      let log3 :=
        (log2 ++ [Call_lockdownd_start_service lockdown "com.apple.afc"])%list
      in
      if negb (lockdown_err =? LOCKDOWN_E_SUCCESS) then
        ({| device_ := device; lockdown_ := lockdown; afc_ := None;
            afc_port_ := port; broken_ := false |},
         log3 ++ [Warned "lockdown error:" lockdown_err])%list
      else
        let (afc_err, afc) := afc_client_new device port in
        let log4 := (log3 ++ [Call_afc_client_new device port])%list in
        let members :=
          {| device_ := device; lockdown_ := lockdown; afc_ := afc;
             afc_port_ := port; broken_ := false |} in
        if negb (afc_err =? 0) then
          (members, log4 ++ [Warned "afc error:" afc_err])%list
        else (members, log4).

(** [iMobileDeviceConnection::~iMobileDeviceConnection()]. *)
Definition iMobileDeviceConnection_delete (m : Members) : list LifeEvent :=
  ((match afc_ m with
    | Some h => [Call_afc_client_free h]
    | None => []
    end)
   ++ (match lockdown_ m with
       | Some h => if negb (broken_ m) then [Call_lockdownd_client_free h]
                   else []
       | None => []
       end)
   ++ (match device_ m with
       | Some h => [Call_idevice_free h]
       | None => []
       end))%list.

End Lifetime.

(** Steps taken in turn until one reports an error, which is then warned
    about: a step is the call made, the error it reports and the text of
    its warning. *)
Fixpoint until_first_failure (steps : list (LifeEvent * Z * string))
  : list LifeEvent :=
  match steps with
  | [] => []
  | (call, err, what) :: rest =>
      call :: (if err =? 0 then until_first_failure rest
               else [Warned what err])
  end.

Inductive Resource := AfcClient | LockdownClient | IDevice.

(** The call that gives a resource back. *)
Definition free_call (r : Resource * handle) : LifeEvent :=
  match r with
  | (AfcClient, h) => Call_afc_client_free h
  | (LockdownClient, h) => Call_lockdownd_client_free h
  | (IDevice, h) => Call_idevice_free h
  end.

Definition resource (k : Resource) (h : option handle)
  : list (Resource * handle) :=
  match h with Some h => [(k, h)] | None => [] end.

Section Obtained.
Context `{Sv : Services}.

(** What the calls reached by the constructor handed out, the latest
    first: the device from [idevice_new]; the lockdown client if
    [idevice_new] succeeded; the AFC client if the service start was
    reached and succeeded. *)
Definition obtained (uuid label : string) : list (Resource * handle) :=
  let (e1, device) := idevice_new uuid in
  let (e2, lockdown) := lockdownd_client_new_with_handshake device label in
  let (e3, port) := lockdownd_start_service lockdown "com.apple.afc" in
  let (e4, afc) := afc_client_new device port in
  (resource AfcClient
     (if (e1 =? 0) && (e2 =? 0) && (e3 =? 0) then afc else None)
   ++ resource LockdownClient (if e1 =? 0 then lockdown else None)
   ++ resource IDevice device)%list.

End Obtained.

Module Demo2.

(** The device answers, the handshake is refused (LOCKDOWN_E_INVALID_CONF)
    and leaves no client. *)
Definition refused : Services :=
  {| idevice_new := fun _ => (0, Some 1%nat);
     lockdownd_client_new_with_handshake := fun _ _ => (-2, None);
     lockdownd_start_service := fun _ _ => (0, 62078);
     afc_client_new := fun _ _ => (0, Some 3%nat) |}.

(** Every step succeeds. *)
Definition working : Services :=
  {| idevice_new := fun _ => (0, Some 1%nat);
     lockdownd_client_new_with_handshake := fun _ _ => (0, Some 2%nat);
     lockdownd_start_service := fun _ _ => (0, 62078);
     afc_client_new := fun _ _ => (0, Some 3%nat) |}.

(** A device that knows no path at all. *)
Definition blank : Platform :=
  {| Device := unit;
     afc_get_file_info := fun d path => (Demo.not_found, d);
     afc_read_directory := fun d path => (Demo.not_found, d);
     Rng := list N;
     qrand := Demo.replay |}.

(** A device whose metadata lists repeat a key, use the key as a value and
    end in a key without a value. *)
Definition repeating : Platform :=
  {| Device := unit;
     afc_get_file_info := fun d path =>
       ({| afc_err := AFC_E_SUCCESS;
           afc_list := Some ["st_ifmt"; "S_IFREG"; "st_size"; "st_ifmt";
                             "st_ifmt"; "S_IFDIR"; "st_ifmt"] |}, d);
     afc_read_directory := fun d path => (Demo.not_found, d);
     Rng := list N;
     qrand := Demo.replay |}.

Definition blank0 : @State blank := @mkState blank tt [5%N] [].
Definition repeating0 : @State repeating := @mkState repeating tt [] [].

(** A device that counts the requests it has answered: [F00] and [F01]
    are there for the first three requests and gone afterwards. *)
Definition fading : Platform :=
  {| Device := nat;
     afc_get_file_info := fun d path =>
       (if Nat.ltb d 3
           && (String.eqb path "/iTunes_Control/Music/F00"
               || String.eqb path "/iTunes_Control/Music/F01")
        then Demo.info "S_IFDIR" else Demo.not_found, S d);
     afc_read_directory := fun d path => (Demo.not_found, S d);
     Rng := list N;
     qrand := Demo.replay |}.

Definition fading0 : @State fading := @mkState fading O [5%N] [].

Definition readme : Song := {| filename := "/home/me/README" |}.
Definition dotted : Song := {| filename := "/home/me/Track.OGG" |}.

End Demo2.

(** * Properties *)

(** ** Metadata lists *)

Lemma pairwise_ind (Q : list string -> Prop) :
  Q [] -> (forall x, Q [x]) ->
  (forall k v l, Q l -> Q (k :: v :: l)) ->
  forall l, Q l.
Proof.
  intros Hnil Hone Hstep.
  assert (H : forall l, Q l /\ forall x, Q (x :: l)).
  { induction l as [|y l [IH1 IH2]]; split; auto. }
  intro l. apply H.
Qed.

Lemma scan_infolist_isNull key l :
  forall ret_,
    isNull (scan_infolist key None ret_ l)
    = isNull ret_ && negb (has_value key l).
Proof.
  induction l as [| x | k v l IH] using pairwise_ind; intro ret_.
  - simpl. now rewrite andb_true_r.
  - simpl. now rewrite andb_true_r.
  - cbn [scan_infolist fromUtf8]. rewrite IH.
    unfold has_value. cbn [pairs existsb fst].
    destruct (String.eqb k key); cbn [isNull orb negb andb].
    + now rewrite andb_false_r.
    + reflexivity.
Qed.

Lemma info_value_isNull key r :
  isNull (info_value key r) = negb (reply_has_value key r).
Proof.
  unfold info_value, reply_has_value.
  destruct (afc_list r) as [l|]; [|reflexivity].
  destruct (afc_err r =? AFC_E_SUCCESS); cbn [negb andb]; [|reflexivity].
  now rewrite scan_infolist_isNull.
Qed.

Section Runs.
Context `{P : Platform}.

Lemma GetFileInfo_run path key st :
  GetFileInfo path key st
  = (info_value key (fst (afc_get_file_info (dev st) path)),
     mkState _ (snd (afc_get_file_info (dev st) path)) (rng st)
             (trace st ++ [EvGetFileInfo path])).
Proof.
  unfold GetFileInfo, bind, call_afc_get_file_info, info_value, ret.
  destruct (afc_get_file_info (dev st) path) as [r d]. cbn [fst snd].
  destruct (afc_list r); [destruct (negb _)|]; reflexivity.
Qed.

Lemma Exists_run path st :
  Exists path st
  = (reply_has_value "st_ifmt" (fst (afc_get_file_info (dev st) path)),
     mkState _ (snd (afc_get_file_info (dev st) path)) (rng st)
             (trace st ++ [EvGetFileInfo path])).
Proof.
  unfold Exists, bind. rewrite GetFileInfo_run. unfold ret.
  now rewrite info_value_isNull, negb_involutive.
Qed.

Lemma Exists_quiescent path st :
  quiescent -> dev (snd (Exists path st)) = dev st.
Proof. intro Hq. rewrite Exists_run. cbn. apply Hq. Qed.

(** C9.  [Exists] answers true exactly when the metadata request succeeds
    and its result holds a value for the [st_ifmt] key; a successful reply
    without that key is reported as absent. *)
Theorem Exists_iff_st_ifmt_value path st :
  let r := fst (afc_get_file_info (dev st) path) in
  (fst (Exists path st) = true
   <-> afc_err r = AFC_E_SUCCESS
       /\ exists l, afc_list r = Some l /\ has_value "st_ifmt" l = true)
  /\ (afc_err r = AFC_E_SUCCESS ->
      forall l, afc_list r = Some l -> has_value "st_ifmt" l = false ->
      fst (Exists path st) = false).
Proof.
  intro r. rewrite Exists_run. cbn [fst]. fold r.
  unfold reply_has_value. split.
  - split.
    + destruct (afc_list r) as [l|]; [|discriminate].
      intro H. apply andb_true_iff in H. destruct H as [He Hv].
      split; [now apply Z.eqb_eq|]. now exists l.
    + intros [He [l [Hl Hv]]]. rewrite Hl, Hv, He. reflexivity.
  - intros He l Hl Hv. rewrite Hl, Hv. apply andb_false_r.
Qed.

End Runs.

(** ** ReadDirectory *)

Lemma keep_condition filters filetype :
  (qeq filetype "S_IFREG" && testFlag filters QDir.Files)
  || (qeq filetype "S_IFDIR" && testFlag filters QDir.Dirs)
  || (qeq filetype "S_IFLNK" && negb (testFlag filters QDir.NoSymLinks))
  = in_mask (kind_of_token filetype) (kindMask (filter_of filters)).
Proof.
  unfold kind_of_token, filter_of, in_mask. cbn [kindMask].
  generalize (testFlag filters QDir.Files) (testFlag filters QDir.Dirs)
             (testFlag filters QDir.NoSymLinks).
  intros f d n. destruct filetype as [s|]; cbn [qeq].
  - destruct (String.eqb_spec s "S_IFREG") as [->|_];
      [| destruct (String.eqb_spec s "S_IFDIR") as [->|_];
         [| destruct (String.eqb s "S_IFLNK")]];
      destruct f, d, n; reflexivity.
  - destruct f, d, n; reflexivity.
Qed.

Lemma subseq_refl l : subseq l l = true.
Proof. induction l as [|x l IH]; cbn; [|rewrite String.eqb_refl]; auto. Qed.

Lemma subseq_tail x xs ys :
  subseq (x :: xs) ys = true -> subseq xs ys = true.
Proof.
  revert x xs. induction ys as [|y ys IH]; intros x xs H; [discriminate|].
  cbn in H. destruct xs as [|x' xs]; [reflexivity|]. cbn.
  destruct (String.eqb x y).
  - destruct (String.eqb x' y); [now apply IH with x'|assumption].
  - destruct (String.eqb x' y); [apply IH in H; now apply IH with x'
                                |now apply IH with x].
Qed.

Lemma subseq_skip xs y ys :
  subseq xs ys = true -> subseq xs (y :: ys) = true.
Proof.
  intro H. destruct xs as [|x xs]; [reflexivity|]. cbn.
  destruct (String.eqb x y); [now apply subseq_tail with x|assumption].
Qed.

Lemma subseq_keep x xs ys :
  subseq xs ys = true -> subseq (x :: xs) (x :: ys) = true.
Proof. intro H. cbn. now rewrite String.eqb_refl. Qed.

Section Listing.
Context `{P : Platform}.

Lemma read_entries_NoFilter path names :
  forall ret_ st,
    read_entries path QDir.NoFilter names ret_ st = ((ret_ ++ names)%list, st).
Proof.
  induction names as [|n names IH]; intros ret_ st; cbn.
  - now rewrite app_nil_r.
  - rewrite IH. now rewrite <- app_assoc.
Qed.

Lemma read_entries_policy path filters names :
  filters <> QDir.NoFilter ->
  forall ret_ st,
    read_entries path filters names ret_ st
    = ((ret_ ++ fst (listing_policy path (filter_of filters) names st))%list,
       snd (listing_policy path (filter_of filters) names st)).
Proof.
  intro Hf. apply Z.eqb_neq in Hf.
  induction names as [|n names IH]; intros ret_ st.
  - cbn. now rewrite app_nil_r.
  - cbn [read_entries listing_policy]. rewrite Hf.
    cbn [includeDotEntries includeHidden filter_of].
    rewrite negb_involutive. fold (is_dot_entry n).
    destruct (testFlag filters QDir.NoDotAndDotDot && is_dot_entry n);
      [apply IH|].
    destruct (negb (testFlag filters QDir.Hidden) && startsWith n ".");
      [apply IH|].
    unfold bind, classify, ret. unfold bind.
    rewrite GetFileInfo_run. rewrite keep_condition.
    set (st1 := mkState _ _ _ _).
    destruct (listing_policy path (filter_of filters) names st1)
      as [kept st2] eqn:Hk.
    destruct (in_mask _ _); rewrite IH, Hk; cbn [fst snd];
      [now rewrite <- app_assoc | reflexivity].
Qed.

Lemma ReadDirectory_run path filters st :
  ReadDirectory path filters st
  = let r := fst (afc_read_directory (dev st) path) in
    let st1 := mkState _ (snd (afc_read_directory (dev st) path)) (rng st)
                       (trace st ++ [EvReadDirectory path]) in
    if reply_failed r then ([], st1)
    else read_entries path filters
           (match afc_list r with Some raw => raw | None => [] end) [] st1.
Proof.
  unfold ReadDirectory, bind, call_afc_read_directory, reply_failed, ret.
  destruct (afc_read_directory (dev st) path) as [r d]. cbn [fst snd].
  destruct (afc_list r); [destruct (negb _)|]; reflexivity.
Qed.

End Listing.

Lemma kind_of_token_null : kind_of_token None = Unknown.
Proof. reflexivity. Qed.

Lemma kind_of_token_Directory v :
  kind_of_token v = Directory -> v = Some "S_IFDIR".
Proof.
  unfold kind_of_token. destruct v as [s|]; cbn [qeq].
  - destruct (String.eqb s "S_IFREG"); [discriminate|].
    destruct (String.eqb_spec s "S_IFDIR") as [->|_]; [reflexivity|].
    destruct (String.eqb s "S_IFLNK"); discriminate.
  - cbn. discriminate.
Qed.

Lemma Unknown_not_in_mask filters :
  in_mask Unknown (kindMask (filter_of filters)) = false.
Proof.
  unfold filter_of, in_mask. cbn [kindMask].
  destruct (testFlag filters QDir.Files), (testFlag filters QDir.Dirs),
    (testFlag filters QDir.NoSymLinks); reflexivity.
Qed.

Lemma info_value_no_value key r :
  reply_has_value key r = false -> info_value key r = None.
Proof.
  intro H. pose proof (info_value_isNull key r) as E. rewrite H in E.
  destruct (info_value key r); [discriminate|reflexivity].
Qed.

Section ListingProperties.
Context `{P : Platform}.

Lemma listing_policy_subseq path f names :
  forall st, subseq (fst (listing_policy path f names st)) names = true.
Proof.
  induction names as [|n names IH]; intro st; [reflexivity|].
  cbn [listing_policy].
  destruct (negb (includeDotEntries f) && is_dot_entry n);
    [apply subseq_skip, IH|].
  destruct (negb (includeHidden f) && startsWith n ".");
    [apply subseq_skip, IH|].
  unfold bind, classify, ret. unfold bind. rewrite GetFileInfo_run.
  set (st1 := mkState _ _ _ _). specialize (IH st1).
  destruct (listing_policy path f names st1) as [kept st2]. cbn [fst] in *.
  destruct (in_mask _ _); [now apply subseq_keep|now apply subseq_skip].
Qed.

(** Every retained name was classified into the mask, in a device state
    met on the way; [Inv] is any property of device states that metadata
    requests preserve. *)
Lemma listing_policy_retained (Inv : Device -> Prop) path f names :
  (forall d p, Inv d -> Inv (snd (afc_get_file_info d p))) ->
  forall st, Inv (dev st) ->
    Inv (dev (snd (listing_policy path f names st)))
    /\ forall name, In name (fst (listing_policy path f names st)) ->
         exists d, Inv d
           /\ in_mask (kind_of_token
                         (info_value "st_ifmt"
                            (fst (afc_get_file_info d (path ++ "/" ++ name)))))
                      (kindMask f) = true.
Proof.
  intro Hinv. induction names as [|n names IH]; intros st Hst.
  - cbn. split; [assumption|contradiction].
  - cbn [listing_policy].
    destruct (negb (includeDotEntries f) && is_dot_entry n); [now apply IH|].
    destruct (negb (includeHidden f) && startsWith n "."); [now apply IH|].
    unfold bind, classify, ret. unfold bind. rewrite GetFileInfo_run.
    set (st1 := mkState _ _ _ _).
    assert (H1 : Inv (dev st1)) by (apply Hinv, Hst).
    destruct (IH st1 H1) as [Hd Hin].
    destruct (listing_policy path f names st1) as [kept st2].
    cbn [fst snd] in *.
    destruct (in_mask _ _) eqn:Hm; cbn [fst snd]; split; auto.
    intros name [<- | H]; [|now apply Hin].
    exists (dev st). split; assumption.
Qed.

(** C10.  When the raw directory read fails (an error code, or no list
    handed back) [ReadDirectory] returns the empty list, which is also what
    it returns for a directory that was read and has no entries. *)
Theorem ReadDirectory_failure_empty path filters st :
  let r := fst (afc_read_directory (dev st) path) in
  (afc_err r <> AFC_E_SUCCESS \/ afc_list r = None ->
   fst (ReadDirectory path filters st) = [])
  /\ (afc_err r = AFC_E_SUCCESS -> afc_list r = Some [] ->
      fst (ReadDirectory path filters st) = []).
Proof.
  intro r. rewrite ReadDirectory_run. cbv zeta. fold r.
  unfold reply_failed. split.
  - intros [He | Hl].
    + apply Z.eqb_neq in He. rewrite He.
      destruct (afc_list r); reflexivity.
    + rewrite Hl. reflexivity.
  - intros He Hl. rewrite Hl, He. reflexivity.
Qed.

(** C4.  With [QDir::NoFilter] the result is the list of raw names the
    device reported, in order and unchanged, and the only request sent is
    the directory read: no [GetFileInfo] is issued. *)
Theorem ReadDirectory_NoFilter_raw path st :
  let r := fst (afc_read_directory (dev st) path) in
  (afc_err r = AFC_E_SUCCESS ->
   forall raw, afc_list r = Some raw ->
   fst (ReadDirectory path QDir.NoFilter st) = raw)
  /\ trace (snd (ReadDirectory path QDir.NoFilter st))
     = (trace st ++ [EvReadDirectory path])%list.
Proof.
  intro r. rewrite ReadDirectory_run. cbv zeta. fold r.
  rewrite read_entries_NoFilter. split.
  - intros He raw Hl. unfold reply_failed. rewrite Hl, He. reflexivity.
  - destruct (reply_failed r); reflexivity.
Qed.

(** C3.  For every filter other than [QDir::NoFilter], [ReadDirectory] is
    the specification's policy: per raw name, in order, drop [.] and [..]
    unless dot entries are included, drop names starting with [.] unless
    hidden entries are included, classify by one [st_ifmt] request, keep
    the name when its kind is in the mask; names are kept in listing
    order.  Results and final states (device, generator, trace of requests)
    coincide. *)
Theorem ReadDirectory_is_policy path filters st :
  filters <> QDir.NoFilter ->
  ReadDirectory path filters st = listDirectory path (filter_of filters) st
  /\ subseq (fst (ReadDirectory path filters st))
            (fst (ReadDirectory path QDir.NoFilter st)) = true.
Proof.
  intro Hf. rewrite !ReadDirectory_run. cbv zeta.
  unfold listDirectory, bind, call_afc_read_directory.
  destruct (afc_read_directory (dev st) path) as [r d]. cbn [fst snd].
  destruct (reply_failed r); [split; reflexivity|].
  rewrite read_entries_NoFilter, read_entries_policy by assumption.
  cbn [app fst]. split.
  - now destruct (listing_policy _ _ _ _).
  - apply listing_policy_subseq.
Qed.

End ListingProperties.

(** [reply_has_value] is false exactly when the request failed or its
    result holds no value for the key. *)
Lemma reply_has_value_false key r :
  reply_has_value key r = false
  <-> reply_failed r = true
      \/ exists l, afc_list r = Some l /\ has_value key l = false.
Proof.
  unfold reply_has_value, reply_failed.
  destruct (afc_list r) as [l|].
  - destruct (afc_err r =? AFC_E_SUCCESS); cbn [andb negb]; split.
    + intro H. right. now exists l.
    + intros [H | [l' [Hl H]]]; [discriminate|]. now injection Hl as ->.
    + now left.
    + reflexivity.
  - split; [now left | reflexivity].
Qed.

Lemma Dirs_only_filtered filters :
  kindMask (filter_of filters) = [Directory] -> filters <> QDir.NoFilter.
Proof. intros H ->. vm_compute in H. discriminate. Qed.

Lemma in_mask_Directory_only k : in_mask k [Directory] = true -> k = Directory.
Proof. destruct k; cbn; intro H; [discriminate|reflexivity|discriminate..]. Qed.

Section Classification.
Context `{P : Platform}.

(** C2.  On a device that metadata requests leave unchanged, a listing
    whose kind mask holds [Directory] only is a subsequence of the
    unfiltered listing, and a direct [st_ifmt] request for any retained
    name answers [S_IFDIR]. *)
Theorem ReadDirectory_Dirs_only_confirmed path filters st :
  quiescent ->
  kindMask (filter_of filters) = [Directory] ->
  subseq (fst (ReadDirectory path filters st))
         (fst (ReadDirectory path QDir.NoFilter st)) = true
  /\ forall name,
       In name (fst (ReadDirectory path filters st)) ->
       fst (GetFileInfo (path ++ "/" ++ name) "st_ifmt"
                        (snd (ReadDirectory path filters st)))
       = Some "S_IFDIR".
Proof.
  intros Hq Hmask. pose proof (Dirs_only_filtered _ Hmask) as Hf.
  rewrite !ReadDirectory_run. cbv zeta.
  destruct (reply_failed _); [split; [reflexivity|contradiction]|].
  rewrite read_entries_NoFilter, read_entries_policy by assumption.
  cbn [app fst snd]. split; [apply listing_policy_subseq|].
  intros name Hin. set (st1 := mkState _ _ _ _) in *.
  destruct (listing_policy_retained (fun d => d = dev st1) path
              (filter_of filters)
              (match afc_list (fst (afc_read_directory (dev st) path)) with
               | Some raw => raw
               | None => []
               end)
              (fun d p Hd => eq_trans (Hq d p) Hd) st1 eq_refl)
    as [Hdev Hret].
  destruct (Hret name Hin) as [d [-> Hk]].
  rewrite GetFileInfo_run. cbn [fst]. rewrite Hdev.
  rewrite Hmask in Hk. now apply kind_of_token_Directory, in_mask_Directory_only.
Qed.

(** C8.  An entry whose [st_ifmt] request fails or yields no value is
    classified [Unknown]: [GetFileInfo] answers the null string, as an
    ordinary result; and when that is so whatever state the device is asked
    in, no listing with a filter other than [QDir::NoFilter] retains the
    entry. *)
Theorem unclassified_entry_excluded path name :
  (forall st,
      reply_has_value "st_ifmt"
        (fst (afc_get_file_info (dev st) (path ++ "/" ++ name))) = false ->
      fst (GetFileInfo (path ++ "/" ++ name) "st_ifmt" st) = None
      /\ fst (classify (path ++ "/" ++ name) st) = Unknown)
  /\ ((forall d,
          reply_has_value "st_ifmt"
            (fst (afc_get_file_info d (path ++ "/" ++ name))) = false) ->
      forall filters st,
        filters <> QDir.NoFilter ->
        ~ In name (fst (ReadDirectory path filters st))).
Proof.
  split.
  - intros st H. unfold classify, bind, ret. rewrite GetFileInfo_run.
    cbn [fst]. now rewrite (info_value_no_value _ _ H).
  - intros H filters st Hf Hin.
    rewrite ReadDirectory_run in Hin. cbv zeta in Hin.
    destruct (reply_failed _); [contradiction|].
    rewrite read_entries_policy in Hin by assumption.
    cbn [app fst] in Hin.
    match type of Hin with
    | In _ (fst (listing_policy _ _ ?names ?st1)) =>
        destruct (listing_policy_retained (fun _ => True) path
                    (filter_of filters) names (fun _ _ _ => I) st1 I)
          as [_ Hret]
    end.
    destruct (Hret name Hin) as [d [_ Hk]].
    rewrite (info_value_no_value _ _ (H d)), kind_of_token_null in Hk.
    now rewrite Unknown_not_in_mask in Hk.
Qed.

End Classification.

(** ** Sections of a string *)

Lemma string_app_assoc (a b c : string) : (a ++ b) ++ c = a ++ (b ++ c).
Proof. induction a as [|x a IH]; cbn; [reflexivity|now rewrite IH]. Qed.

Lemma split_nonempty sep s : split sep s <> [].
Proof.
  destruct s as [|c s]; cbn; [discriminate|].
  destruct (Ascii.eqb c sep); [discriminate|].
  destruct (split sep s); discriminate.
Qed.

Lemma split_app_sep sep a b :
  split sep (a ++ String sep b) = (split sep a ++ split sep b)%list.
Proof.
  induction a as [|c a IH]; cbn [append split].
  - now rewrite Ascii.eqb_refl.
  - destruct (Ascii.eqb c sep); [now rewrite IH|].
    rewrite IH. pose proof (split_nonempty sep a) as Hne.
    destruct (split sep a); [contradiction|reflexivity].
Qed.

Lemma split_single_cons sep c x :
  Ascii.eqb c sep = false -> split sep x = [x] ->
  split sep (String c x) = [String c x].
Proof. intros Hc Hx. cbn. now rewrite Hc, Hx. Qed.

Lemma split_single_inv sep c x :
  split sep (String c x) = [String c x] ->
  Ascii.eqb c sep = false /\ split sep x = [x].
Proof.
  cbn. destruct (Ascii.eqb c sep); [discriminate|].
  pose proof (split_nonempty sep x) as Hne.
  destruct (split sep x) as [|y ys]; [contradiction|].
  intro H. injection H as -> ->. now split.
Qed.

Lemma split_fields_single sep s :
  Forall (fun x => split sep x = [x]) (split sep s).
Proof.
  induction s as [|c s IH]; cbn [split].
  - constructor; [reflexivity|constructor].
  - destruct (Ascii.eqb c sep) eqn:Hc.
    + constructor; [reflexivity|assumption].
    + destruct (split sep s) as [|y ys]; [repeat constructor; cbn; now rewrite Hc|].
      inversion IH as [|? ? Hy Hys]; subst.
      constructor; [now apply split_single_cons|assumption].
Qed.

Lemma Forall_last {A} (Q : A -> Prop) (l : list A) d :
  Forall Q l -> l <> [] -> Q (last l d).
Proof.
  induction 1 as [|x l Hx Hl IH]; [contradiction|]. intros _.
  destruct l as [|y l]; [assumption|]. now apply IH.
Qed.

Lemma skipn_to_last {A} (l : list A) d :
  l <> [] -> skipn (List.length l - 1) l = [last l d].
Proof.
  induction l as [|x l IH]; [contradiction|]. intros _.
  destruct l as [|y l]; [reflexivity|].
  replace (List.length (x :: y :: l) - 1)%nat
    with (S (List.length (y :: l) - 1))%nat by (cbn; lia).
  cbn [skipn]. now apply IH.
Qed.

Lemma section_last sep s :
  section sep (-1) (-1) s = last (split sep s) EmptyString.
Proof.
  unfold section. pose proof (split_nonempty sep s) as Hne.
  set (l := split sep s) in *.
  assert (Hlen : (1 <= List.length l)%nat)
    by (destruct l; [contradiction|cbn; lia]).
  cbn [Z.ltb Z.compare].
  replace (Z.max 0 (-1 + Z.of_nat (List.length l)))
    with (Z.of_nat (List.length l - 1)) by lia.
  replace (-1 + Z.of_nat (List.length l) - Z.of_nat (List.length l - 1) + 1)
    with 1 by lia.
  rewrite Nat2Z.id, (skipn_to_last l EmptyString) by assumption.
  reflexivity.
Qed.

Lemma section_last_single sep s :
  split sep (section sep (-1) (-1) s) = [section sep (-1) (-1) s].
Proof.
  rewrite section_last.
  apply (Forall_last (fun x => split sep x = [x]));
    [apply split_fields_single | apply split_nonempty].
Qed.

Lemma section_last_app sep a e :
  split sep e = [e] -> section sep (-1) (-1) (a ++ String sep e) = e.
Proof.
  intro He. now rewrite section_last, split_app_sep, He, last_last.
Qed.

Lemma path_last_dot dir x e :
  dir ++ "/" ++ x ++ "." ++ e = (dir ++ "/" ++ x) ++ String "." e.
Proof. now rewrite string_app_assoc. Qed.

Lemma candidate_path_extension dir n e :
  split "." e = [e] ->
  section "." (-1) (-1) (dir ++ "/" ++ candidate n e) = e.
Proof.
  intro He. unfold candidate. rewrite path_last_dot.
  now apply section_last_app.
Qed.

Lemma toLower_char_dot c :
  Ascii.eqb c "." = false -> Ascii.eqb (toLower_char c) "." = false.
Proof.
  destruct c as [[] [] [] [] [] [] [] []]; vm_compute; intro H; exact H.
Qed.

Lemma toLower_single s :
  split "." s = [s] -> split "." (toLower s) = [toLower s].
Proof.
  induction s as [|c s IH]; [reflexivity|]. intro H.
  apply split_single_inv in H. destruct H as [Hc Hs].
  cbn [toLower]. apply split_single_cons; [now apply toLower_char_dot|auto].
Qed.

Lemma extension_of_single metadata :
  split "." (extension_of metadata) = [extension_of metadata].
Proof.
  unfold extension_of. destruct (isEmpty _); [reflexivity|].
  apply toLower_single, section_last_single.
Qed.

(** ** GetUnusedFilename *)

Section Allocation.
Context `{P : Platform}.

Lemma call_qrand_run st :
  call_qrand st
  = (Z.of_N (fst (qrand (rng st))),
     mkState _ (dev st) (snd (qrand (rng st))) (trace st ++ [EvQRand])).
Proof. unfold call_qrand. now destruct (qrand (rng st)). Qed.

Lemma Exists_same_device path st st' :
  dev st = dev st' -> fst (Exists path st) = fst (Exists path st').
Proof. intro H. rewrite !Exists_run. cbn [fst]. now rewrite H. Qed.

Lemma find_unused_candidate fuel dir extension :
  forall st filename st',
    find_unused fuel dir extension st = Some (filename, st') ->
    exists n, 0 <= n < kRandMax /\ filename = candidate n extension.
Proof.
  induction fuel as [|fuel IH]; intros st filename st' H; [discriminate|].
  cbn [find_unused] in H. rewrite call_qrand_run in H.
  destruct (Exists _ _) as [e st2]. destruct e; cbn [negb] in H.
  - now apply IH in H.
  - injection H as <- <-. eexists. split; [|reflexivity].
    apply Z.rem_bound_pos; [apply N2Z.is_nonneg | reflexivity].
Qed.

Lemma find_unused_unused fuel dir extension :
  quiescent ->
  forall st filename st',
    find_unused fuel dir extension st = Some (filename, st') ->
    fst (Exists (dir ++ "/" ++ filename) st') = false.
Proof.
  intro Hq. induction fuel as [|fuel IH]; intros st filename st' H;
    [discriminate|].
  cbn [find_unused] in H. rewrite call_qrand_run in H.
  destruct (Exists _ _) as [e st2] eqn:He. destruct e; cbn [negb] in H.
  - now apply IH in H.
  - injection H as <- <-.
    match type of He with
    | Exists ?p ?st1 = _ =>
        pose proof (Exists_quiescent p st1 Hq) as Hd;
        rewrite He in Hd; cbn [snd] in Hd;
        rewrite (Exists_same_device p st2 st1 Hd), He
    end.
    reflexivity.
Qed.

End Allocation.

Section AllocationProperties.
Context `{P : Platform}.

(** The counting loop probes [F<n>], [F<n+1>], ... in turn, up to and
    including the first one reported absent, and draws no random value. *)
Lemma count_musicdirs_probes fuel :
  forall n st N st1,
    count_musicdirs fuel n st = Some (N, st1) ->
    n <= N
    /\ rng st1 = rng st
    /\ trace st1
       = (trace st
          ++ map (fun k => EvGetFileInfo (musicdir (n + Z.of_nat k)))
                 (seq 0 (S (Z.to_nat (N - n)))))%list.
Proof.
  induction fuel as [|fuel IH]; intros n st N st1 H; [discriminate|].
  cbn [count_musicdirs] in H. rewrite Exists_run in H.
  destruct (reply_has_value _ _); cbn [negb] in H.
  - destruct (n =? INT_MAX); [discriminate|].
    apply IH in H. cbn [rng trace] in H. destruct H as [Hle [Hr Ht]].
    split; [lia|]. split; [assumption|]. rewrite Ht.
    replace (Z.to_nat (N - n)) with (S (Z.to_nat (N - (n + 1)))) by lia.
    rewrite <- app_assoc. f_equal.
    change (seq 0 (S (S (Z.to_nat (N - (n + 1))))))
      with (0%nat :: seq 1 (S (Z.to_nat (N - (n + 1))))).
    cbn [map app]. rewrite Z.add_0_r. f_equal.
    rewrite <- seq_shift, map_map. apply map_ext. intro k.
    do 2 f_equal. lia.
  - injection H as <- <-. cbn [rng trace]. split; [lia|]. split; [reflexivity|].
    rewrite Z.sub_diag. cbn. now rewrite Z.add_0_r.
Qed.

(** A returned path is a bucket directory, a slash and a candidate name
    carrying the chosen extension. *)
Lemma GetUnusedFilename_shape fuel metadata st path st' :
  GetUnusedFilename fuel metadata st = Some (Some path, st') ->
  exists dir_num n,
    0 <= dir_num /\ 0 <= n < kRandMax
    /\ path = musicdir dir_num ++ "/" ++ candidate n (extension_of metadata).
Proof.
  intros H. unfold GetUnusedFilename in H.
  destruct (count_musicdirs fuel 0 st) as [[N st1]|]; [|discriminate].
  unfold pick_and_name in H. destruct (N <=? 0) eqn:HN; [discriminate|].
  rewrite call_qrand_run in H.
  set (r := Z.of_N _) in H. set (st2 := mkState _ _ _ _) in H.
  set (dir := musicdir _) in H.
  destruct (Exists dir st2) as [e st3]. destruct e; [|discriminate].
  cbn [negb] in H.
  destruct (find_unused _ _ _ _) as [[fname st4]|] eqn:Hf; [|discriminate].
  apply find_unused_candidate in Hf. destruct Hf as [n [Hn ->]].
  exists (Z.rem r N), n. split.
  - apply Z.rem_nonneg; [apply Z.leb_gt in HN; lia | apply N2Z.is_nonneg].
  - split; [assumption|]. now injection H as <- _.
Qed.

(** C5.  When the first bucket path [/iTunes_Control/Music/F00] is already
    reported absent, [GetUnusedFilename] returns the null string with the
    no-directories warning, having sent that one request only: no random
    value is drawn and no candidate is probed. *)
Theorem GetUnusedFilename_no_buckets fuel metadata st :
  fst (Exists "/iTunes_Control/Music/F00" st) = false ->
  exists st',
    GetUnusedFilename (S fuel) metadata st = Some (None, st')
    /\ rng st' = rng st
    /\ trace st'
       = (trace st ++ [EvGetFileInfo "/iTunes_Control/Music/F00";
                       EvWarning no_musicdirs_warning])%list.
Proof.
  intro H. unfold GetUnusedFilename. cbn [count_musicdirs].
  change (musicdir 0) with "/iTunes_Control/Music/F00".
  destruct (Exists "/iTunes_Control/Music/F00" st) as [e st1] eqn:He.
  cbn [fst] in H. subst e. cbn [negb]. unfold pick_and_name. cbn [Z.leb Z.compare].
  eexists. split; [reflexivity|].
  rewrite Exists_run in He. injection He as _ <-. cbn.
  split; [reflexivity|]. now rewrite <- app_assoc.
Qed.

(** C1.  On a device that metadata requests leave unchanged, a path
    returned by [GetUnusedFilename] is one for which [Exists] answers false
    in the state the call returns in. *)
Theorem GetUnusedFilename_unused fuel metadata st path st' :
  quiescent ->
  GetUnusedFilename fuel metadata st = Some (Some path, st') ->
  fst (Exists path st') = false.
Proof.
  intros Hq H. unfold GetUnusedFilename in H.
  destruct (count_musicdirs fuel 0 st) as [[N st1]|]; [|discriminate].
  unfold pick_and_name in H. destruct (N <=? 0); [discriminate|].
  destruct (call_qrand st1) as [r st2].
  destruct (Exists _ st2) as [e st3]. destruct e; [|discriminate].
  cbn [negb] in H.
  destruct (find_unused _ _ _ _) as [[filename st4]|] eqn:Hf; [|discriminate].
  injection H as <- <-. now apply (find_unused_unused _ _ _ Hq) in Hf.
Qed.

(** C7.  The extension of a returned path (its last [.]-separated
    section) is the hint, i.e. the lower-cased last [.]-separated section
    of the song's file name, when the hint is not empty, and [mp3] when it
    is. *)
Theorem GetUnusedFilename_extension fuel metadata st path st' :
  GetUnusedFilename fuel metadata st = Some (Some path, st') ->
  let hint := toLower (section "." (-1) (-1) (filename metadata)) in
  section "." (-1) (-1) path = if isEmpty hint then "mp3" else hint.
Proof.
  intros H. apply GetUnusedFilename_shape in H.
  destruct H as [dir_num [n [_ [_ ->]]]].
  cbv zeta. fold (extension_of metadata).
  apply candidate_path_extension, extension_of_single.
Qed.

End AllocationProperties.

(** ** The properties at work on the two concrete devices *)

Module Witness.
Import Demo.

Lemma still_quiescent : quiescent (P := still).
Proof. intros d p. reflexivity. Defined.

Lemma Exists_iff_st_ifmt_value_witness :
  fst (Exists (P := still) "/music/sub" still0) = true
  /\ fst (Exists (P := still) "/music/nofmt" still0) = false.
Proof.
  split.
  - apply (proj1 (Exists_iff_st_ifmt_value (P := still) "/music/sub" still0)).
    split; [reflexivity|]. eexists. split; reflexivity.
  - apply (proj2 (Exists_iff_st_ifmt_value (P := still) "/music/nofmt" still0)
             eq_refl ["st_size"; "68"]); reflexivity.
Defined.

Lemma ReadDirectory_failure_empty_witness :
  fst (ReadDirectory (P := still) "/nowhere" QDir.Dirs still0) = []
  /\ fst (ReadDirectory (P := still) "/empty" QDir.Dirs still0) = [].
Proof.
  split.
  - apply (proj1 (ReadDirectory_failure_empty (P := still) "/nowhere"
                    QDir.Dirs still0)).
    right. reflexivity.
  - apply (proj2 (ReadDirectory_failure_empty (P := still) "/empty"
                    QDir.Dirs still0)); reflexivity.
Defined.

Lemma ReadDirectory_NoFilter_raw_witness :
  fst (ReadDirectory (P := still) "/music" QDir.NoFilter still0)
  = ["."; ".."; ".cache"; "a.mp3"; "sub"; "link"; "nofmt"; "ghost"]
  /\ trace (snd (ReadDirectory (P := still) "/music" QDir.NoFilter still0))
     = [EvReadDirectory "/music"].
Proof.
  destruct (ReadDirectory_NoFilter_raw (P := still) "/music" still0)
    as [Hraw Htrace].
  split; [apply Hraw; reflexivity | exact Htrace].
Defined.

Lemma ReadDirectory_is_policy_witness :
  ReadDirectory (P := still) "/music" 0x1103 still0
  = listDirectory (P := still) "/music" (filter_of 0x1103) still0
  /\ subseq (fst (ReadDirectory (P := still) "/music" 0x1103 still0))
            (fst (ReadDirectory (P := still) "/music" QDir.NoFilter still0))
     = true.
Proof.
  apply (ReadDirectory_is_policy (P := still) "/music" 0x1103 still0).
  unfold QDir.NoFilter. lia.
Defined.

Lemma ReadDirectory_Dirs_only_confirmed_witness :
  subseq (fst (ReadDirectory (P := still) "/music" 0x9 still0))
         (fst (ReadDirectory (P := still) "/music" QDir.NoFilter still0))
  = true
  /\ forall name,
       In name (fst (ReadDirectory (P := still) "/music" 0x9 still0)) ->
       fst (GetFileInfo (P := still) ("/music" ++ "/" ++ name) "st_ifmt"
              (snd (ReadDirectory (P := still) "/music" 0x9 still0)))
       = Some "S_IFDIR".
Proof.
  apply (ReadDirectory_Dirs_only_confirmed (P := still) "/music" 0x9 still0).
  - exact still_quiescent.
  - reflexivity.
Defined.

Lemma unclassified_entry_excluded_witness :
  fst (classify (P := still) "/music/ghost" still0) = Unknown
  /\ ~ In "ghost" (fst (ReadDirectory (P := still) "/music" 0x3 still0)).
Proof.
  destruct (unclassified_entry_excluded (P := still) "/music" "ghost")
    as [Hkind Hskip].
  split.
  - apply (Hkind still0). reflexivity.
  - apply Hskip; [intro d; reflexivity | unfold QDir.NoFilter; lia].
Defined.

Lemma GetUnusedFilename_no_buckets_witness :
  exists st',
    GetUnusedFilename (P := vanishing) 1 track vanished0 = Some (None, st')
    /\ rng st' = rng vanished0
    /\ trace st'
       = [EvGetFileInfo "/iTunes_Control/Music/F00";
          EvWarning no_musicdirs_warning].
Proof.
  apply (GetUnusedFilename_no_buckets (P := vanishing) 0 track vanished0).
  reflexivity.
Defined.

Lemma GetUnusedFilename_unused_witness :
  exists st',
    GetUnusedFilename (P := still) 5 track still0
    = Some (Some "/iTunes_Control/Music/F01/libgpod000012.ogg", st')
    /\ fst (Exists (P := still)
              "/iTunes_Control/Music/F01/libgpod000012.ogg" st') = false.
Proof.
  eexists. split.
  - vm_compute. reflexivity.
  - apply (GetUnusedFilename_unused (P := still) 5 track still0).
    + exact still_quiescent.
    + vm_compute. reflexivity.
Defined.

Lemma GetUnusedFilename_extension_witness :
  section "." (-1) (-1) "/iTunes_Control/Music/F01/libgpod000012.ogg" = "ogg".
Proof.
  refine (GetUnusedFilename_extension (P := still) 5 track still0
            "/iTunes_Control/Music/F01/libgpod000012.ogg" _ _).
  vm_compute. reflexivity.
Defined.

End Witness.

(** * Further properties of the code *)

(** ** GetFileInfo *)

Lemma scan_infolist_last_value key l :
  forall ret_,
    scan_infolist key None ret_ l
    = match last_value key (pairs l) with
      | Some w => Some w
      | None => ret_
      end.
Proof.
  induction l as [| x | k v l IH] using pairwise_ind; intro ret_;
    [reflexivity | reflexivity |].
  cbn [scan_infolist fromUtf8 pairs last_value]. rewrite IH.
  destruct (last_value key (pairs l)); [reflexivity|].
  now destruct (String.eqb k key).
Qed.

Section MoreGetFileInfo.
Context `{P : Platform}.

(** X1.  When the request succeeds, [GetFileInfo] answers the value of the
    last key/value pair whose key is the one asked for, and the null string
    when there is none; values are never read as keys and a trailing key
    without a value is ignored. *)
Theorem GetFileInfo_last_pair path key st :
  let r := fst (afc_get_file_info (dev st) path) in
  afc_err r = AFC_E_SUCCESS ->
  forall l, afc_list r = Some l ->
  fst (GetFileInfo path key st) = last_value key (pairs l).
Proof.
  intros r He l Hl. rewrite GetFileInfo_run. cbn [fst]. fold r.
  unfold info_value. rewrite Hl, He. cbn [Z.eqb negb].
  rewrite scan_infolist_last_value. now destruct (last_value key (pairs l)).
Qed.

End MoreGetFileInfo.

(** ** ReadDirectory *)

Section MoreReadDirectory.
Context `{P : Platform}.

Lemma read_entries_requests path filters names :
  filters <> QDir.NoFilter ->
  forall ret_ st,
    rng (snd (read_entries path filters names ret_ st)) = rng st
    /\ trace (snd (read_entries path filters names ret_ st))
       = (trace st
          ++ map (fun n => EvGetFileInfo (path ++ "/" ++ n))
                 (filter (survives filters) names))%list.
Proof.
  intro Hf. apply Z.eqb_neq in Hf.
  induction names as [|n names IH]; intros ret_ st.
  - cbn. now rewrite app_nil_r.
  - cbn [read_entries filter]. rewrite Hf. unfold survives at 1.
    destruct (testFlag filters QDir.NoDotAndDotDot
              && (String.eqb n "." || String.eqb n "..")); cbn [negb andb];
      [apply IH|].
    destruct (negb (testFlag filters QDir.Hidden) && startsWith n ".");
      cbn [negb]; [apply IH|].
    unfold bind. rewrite GetFileInfo_run. set (st1 := mkState _ _ _ _).
    destruct (_ || _);
      match goal with
      | |- context [read_entries path filters names ?a st1] =>
          destruct (IH a st1) as [Hr Ht]
      end;
      rewrite Hr, Ht; subst st1; cbn [rng trace map]; split;
      try reflexivity; now rewrite <- app_assoc.
Qed.

Lemma read_entries_retained path filters names :
  filters <> QDir.NoFilter ->
  forall ret_ st name,
    In name (fst (read_entries path filters names ret_ st)) ->
    In name ret_ \/ (In name names /\ survives filters name = true).
Proof.
  intro Hf. apply Z.eqb_neq in Hf.
  induction names as [|n names IH]; intros ret_ st name Hin.
  - now left.
  - cbn [read_entries] in Hin. rewrite Hf in Hin.
    assert (Hskip : forall st',
               In name (fst (read_entries path filters names ret_ st')) ->
               In name ret_
               \/ (In name (n :: names) /\ survives filters name = true)).
    { intros st' H. destruct (IH _ _ _ H) as [H1 | [H1 H2]];
        [now left | right; split; [now right | assumption]]. }
    destruct (testFlag filters QDir.NoDotAndDotDot
              && (String.eqb n "." || String.eqb n "..")) eqn:Hdot;
      [now apply Hskip in Hin|].
    destruct (negb (testFlag filters QDir.Hidden) && startsWith n ".")
      eqn:Hhid; [now apply Hskip in Hin|].
    unfold bind in Hin. rewrite GetFileInfo_run in Hin.
    match type of Hin with
    | context [if ?c then _ else _] => destruct c
    end; [|now apply Hskip in Hin].
    destruct (IH _ _ _ Hin) as [H1 | [H1 H2]].
    + apply in_app_or in H1. destruct H1 as [H1 | [<- | []]]; [now left|].
      right. split; [now left|]. unfold survives. now rewrite Hdot, Hhid.
    + right. split; [now right | assumption].
Qed.

Lemma read_entries_quiescent path filters names :
  filters <> QDir.NoFilter ->
  quiescent ->
  forall ret_ st,
    dev (snd (read_entries path filters names ret_ st)) = dev st
    /\ fst (read_entries path filters names ret_ st)
       = (ret_
          ++ filter (fun n =>
                       survives filters n
                       && accepts filters
                            (info_value "st_ifmt"
                               (fst (afc_get_file_info (dev st)
                                       (path ++ "/" ++ n)))))
                    names)%list.
Proof.
  intros Hf Hq. apply Z.eqb_neq in Hf.
  induction names as [|n names IH]; intros ret_ st.
  - cbn. now rewrite app_nil_r.
  - cbn [read_entries filter]. rewrite Hf. unfold survives at 1.
    destruct (testFlag filters QDir.NoDotAndDotDot
              && (String.eqb n "." || String.eqb n "..")); cbn [negb andb];
      [apply IH|].
    destruct (negb (testFlag filters QDir.Hidden) && startsWith n ".");
      cbn [negb andb]; [apply IH|].
    unfold bind. rewrite GetFileInfo_run. set (st1 := mkState _ _ _ _).
    assert (Hd : dev st1 = dev st) by apply Hq.
    fold (accepts filters
            (info_value "st_ifmt"
               (fst (afc_get_file_info (dev st) (path ++ "/" ++ n))))).
    destruct (accepts filters _);
      match goal with
      | |- context [read_entries path filters names ?a st1] =>
          destruct (IH a st1) as [Hdev Hres]
      end;
      rewrite Hdev, Hres, Hd; split; try reflexivity.
    now rewrite <- app_assoc.
Qed.

End MoreReadDirectory.

Section ReadDirectoryProperties.
Context `{P : Platform}.

(** X2.  [ReadDirectory] sends one directory read and then, unless the read
    failed or the filter is [QDir::NoFilter], one metadata request for every
    raw name that passes the two name tests, in listing order, and nothing
    else; it draws no random value. *)
Theorem ReadDirectory_requests path filters st :
  let r := fst (afc_read_directory (dev st) path) in
  let raw := match afc_list r with Some raw => raw | None => [] end in
  rng (snd (ReadDirectory path filters st)) = rng st
  /\ trace (snd (ReadDirectory path filters st))
     = (trace st
        ++ EvReadDirectory path
           :: (if reply_failed r || (filters =? QDir.NoFilter) then []
               else map (fun n => EvGetFileInfo (path ++ "/" ++ n))
                        (filter (survives filters) raw)))%list.
Proof.
  cbv zeta. rewrite ReadDirectory_run. cbv zeta.
  destruct (reply_failed _); cbn [orb]; [split; reflexivity|].
  destruct (Z.eqb_spec filters QDir.NoFilter) as [-> | Hf].
  - rewrite read_entries_NoFilter. split; reflexivity.
  - match goal with
    | |- context [read_entries path filters ?raw ?a ?st1] =>
        destruct (read_entries_requests path filters raw Hf a st1) as [Hr Ht]
    end.
    rewrite Hr, Ht. cbn [rng trace]. split; [reflexivity|].
    now rewrite <- app_assoc.
Qed.

(** X3.  With a filter other than [QDir::NoFilter]: when [QDir::Hidden] is
    not set no returned name starts with a dot (so [.] and [..] are dropped
    whether or not [QDir::NoDotAndDotDot] is set), and when
    [QDir::NoDotAndDotDot] is set neither [.] nor [..] is returned. *)
Theorem ReadDirectory_hidden_and_dots path filters st name :
  filters <> QDir.NoFilter ->
  In name (fst (ReadDirectory path filters st)) ->
  (testFlag filters QDir.Hidden = false -> startsWith name "." = false)
  /\ (testFlag filters QDir.NoDotAndDotDot = true ->
      name <> "." /\ name <> "..").
Proof.
  intros Hf Hin. rewrite ReadDirectory_run in Hin. cbv zeta in Hin.
  destruct (reply_failed _); [contradiction|].
  apply (read_entries_retained _ _ _ Hf) in Hin.
  destruct Hin as [[] | [_ Hs]]. unfold survives in Hs.
  apply andb_true_iff in Hs. destruct Hs as [Hdot Hhid]. split.
  - intro Hh. rewrite Hh in Hhid. cbn [negb andb] in Hhid.
    now apply negb_true_iff in Hhid.
  - intro Hd. rewrite Hd in Hdot. cbn [andb] in Hdot.
    apply negb_true_iff, orb_false_iff in Hdot. destruct Hdot as [H1 H2].
    split; intros ->; discriminate.
Qed.

(** X4.  On a device that metadata requests leave unchanged, the result for
    a filter other than [QDir::NoFilter] is the raw listing filtered by one
    test per name: the name passes the two name tests and a direct
    [st_ifmt] request for it, made after the listing, is accepted by the
    type test.  Duplicate raw names are kept or dropped alike. *)
Theorem ReadDirectory_is_filter path filters st :
  quiescent ->
  filters <> QDir.NoFilter ->
  let r := fst (afc_read_directory (dev st) path) in
  afc_err r = AFC_E_SUCCESS ->
  forall raw, afc_list r = Some raw ->
  fst (ReadDirectory path filters st)
  = filter (fun n =>
              survives filters n
              && accepts filters
                   (fst (GetFileInfo (path ++ "/" ++ n) "st_ifmt"
                           (snd (ReadDirectory path filters st)))))
           raw.
Proof.
  intros Hq Hf r He raw Hl. rewrite ReadDirectory_run. cbv zeta. fold r.
  unfold reply_failed. rewrite Hl, He, Z.eqb_refl. cbn [negb].
  match goal with
  | |- context [read_entries path filters raw [] ?st1] =>
      destruct (read_entries_quiescent path filters raw Hf Hq [] st1)
        as [Hdev Hres]
  end.
  rewrite Hres. cbn [app]. apply filter_ext. intro n.
  now rewrite GetFileInfo_run, Hdev.
Qed.

End ReadDirectoryProperties.

(** ** GetUnusedFilename *)

Section MoreAllocation.
Context `{P : Platform}.

Lemma Exists_trace path st :
  trace (snd (Exists path st)) = (trace st ++ [EvGetFileInfo path])%list
  /\ rng (snd (Exists path st)) = rng st.
Proof. rewrite Exists_run. split; reflexivity. Qed.

(** On a quiet device the counting loop stops at the first index whose
    directory is absent. *)
Lemma count_musicdirs_first_gap fuel :
  quiescent ->
  forall n st N st1,
    count_musicdirs fuel n st = Some (N, st1) ->
    dev st1 = dev st
    /\ n <= N
    /\ (forall i, n <= i < N -> fst (Exists (musicdir i) st) = true)
    /\ fst (Exists (musicdir N) st) = false.
Proof.
  intro Hq. induction fuel as [|fuel IH]; intros n st N st1 H; [discriminate|].
  cbn [count_musicdirs] in H.
  destruct (Exists (musicdir n) st) as [e st0] eqn:He.
  pose proof (Exists_quiescent (musicdir n) st Hq) as Hd.
  rewrite He in Hd. cbn [snd] in Hd.
  destruct e; cbn [negb] in H.
  - destruct (n =? INT_MAX); [discriminate|].
    apply IH in H. destruct H as [Hd1 [Hle [Hall Hlast]]].
    split; [congruence|]. split; [lia|]. split.
    + intros i Hi. destruct (Z.eq_dec i n) as [-> | Hne].
      * now rewrite He.
      * rewrite <- (Exists_same_device _ st0 st Hd). apply Hall. lia.
    + now rewrite <- (Exists_same_device _ st0 st Hd).
  - injection H as <- <-. split; [assumption|]. split; [lia|]. split.
    + intros i Hi. lia.
    + now rewrite He.
Qed.

Lemma count_musicdirs_reaches fuel :
  quiescent ->
  forall (k : nat) n st,
    (forall i, n <= i < n + Z.of_nat k -> fst (Exists (musicdir i) st) = true) ->
    fst (Exists (musicdir (n + Z.of_nat k)) st) = false ->
    n + Z.of_nat k <= INT_MAX ->
    (k < fuel)%nat ->
    exists st1, count_musicdirs fuel n st = Some (n + Z.of_nat k, st1).
Proof.
  intro Hq. induction fuel as [|fuel IH]; intros k n st Hall Hlast Hmax Hk;
    [lia|].
  cbn [count_musicdirs].
  destruct (Exists (musicdir n) st) as [e st0] eqn:He.
  pose proof (Exists_quiescent (musicdir n) st Hq) as Hd.
  rewrite He in Hd. cbn [snd] in Hd.
  destruct k as [|k].
  - rewrite Z.add_0_r in Hlast. rewrite He in Hlast. cbn [fst] in Hlast.
    subst e. cbn [negb]. rewrite Z.add_0_r. now exists st0.
  - assert (Hn : e = true).
    { specialize (Hall n). rewrite He in Hall. apply Hall. lia. }
    subst e. cbn [negb].
    destruct (Z.eqb_spec n INT_MAX) as [-> | _]; [lia|].
    replace (n + Z.of_nat (S k)) with ((n + 1) + Z.of_nat k) in * by lia.
    apply IH; try lia.
    + intros i Hi. rewrite (Exists_same_device _ st0 st Hd). apply Hall. lia.
    + now rewrite (Exists_same_device _ st0 st Hd).
Qed.

Lemma find_unused_requests fuel dir extension :
  forall st filename st',
    find_unused fuel dir extension st = Some (filename, st') ->
    exists ns n,
      0 <= n < kRandMax
      /\ filename = candidate n extension
      /\ trace st'
         = (trace st ++ draw_events dir extension (ns ++ [n]))%list.
Proof.
  induction fuel as [|fuel IH]; intros st filename st' H; [discriminate|].
  cbn [find_unused] in H. rewrite call_qrand_run in H.
  set (r := Z.rem _ kRandMax) in H.
  assert (Hr : 0 <= r < kRandMax)
    by (apply Z.rem_bound_pos; [apply N2Z.is_nonneg | reflexivity]).
  rewrite Exists_run in H.
  destruct (reply_has_value _ _); cbn [negb] in H.
  - apply IH in H. destruct H as [ns [n [Hn [Hf Ht]]]].
    exists (r :: ns), n. split; [assumption|]. split; [assumption|].
    rewrite Ht. cbn [trace app draw_events flat_map].
    now rewrite <- !app_assoc.
  - injection H as <- <-. exists [], r. split; [assumption|].
    split; [reflexivity|]. cbn [trace app draw_events flat_map].
    now rewrite <- !app_assoc.
Qed.

End MoreAllocation.

Section AllocationExtras.
Context `{P : Platform}.

(** X5.  On a device that metadata requests leave unchanged, the number the
    counting loop ends with is the index of the first missing [F..]
    directory: every directory below it is present and the one at the index
    itself is absent, so directories that follow a gap are not counted. *)
Theorem count_musicdirs_stops_at_first_gap fuel st N st1 :
  quiescent ->
  count_musicdirs fuel 0 st = Some (N, st1) ->
  0 <= N
  /\ (forall i, 0 <= i < N -> fst (Exists (musicdir i) st1) = true)
  /\ fst (Exists (musicdir N) st1) = false.
Proof.
  intros Hq H.
  destruct (count_musicdirs_first_gap fuel Hq 0 st N st1 H)
    as [Hd [Hle [Hall Hlast]]].
  split; [assumption|]. split.
  - intros i Hi. rewrite (Exists_same_device _ st1 st Hd). now apply Hall.
  - now rewrite (Exists_same_device _ st1 st Hd).
Qed.

(** X6.  Conversely, on such a device, when [F00] .. [F<N-1>] are present
    and [F<N>] is absent, the counting loop ends with [N] after [N + 1]
    probes: any bound above [N] is enough. *)
Theorem count_musicdirs_terminates fuel st N :
  quiescent ->
  0 <= N <= INT_MAX ->
  (forall i, 0 <= i < N -> fst (Exists (musicdir i) st) = true) ->
  fst (Exists (musicdir N) st) = false ->
  (Z.to_nat N < fuel)%nat ->
  exists st1,
    count_musicdirs fuel 0 st = Some (N, st1)
    /\ trace st1 = (trace st ++ probe_events N)%list.
Proof.
  intros Hq HN Hall Hlast Hfuel.
  destruct (count_musicdirs_reaches fuel Hq (Z.to_nat N) 0 st) as [st1 H1].
  - intros i Hi. apply Hall. lia.
  - now replace (0 + Z.of_nat (Z.to_nat N)) with N by lia.
  - lia.
  - assumption.
  - replace (0 + Z.of_nat (Z.to_nat N)) with N in H1 by lia.
    exists st1. split; [assumption|].
    destruct (count_musicdirs_probes fuel 0 st N st1 H1) as [_ [_ Ht]].
    rewrite Ht. unfold probe_events. now rewrite Z.sub_0_r.
Qed.

(** X7.  On a device that metadata requests leave unchanged the re-check of
    the chosen directory cannot fail: when [GetUnusedFilename] returns the
    null string, [F00] is absent and the run consisted of that one probe
    and the no-directories warning. *)
Theorem GetUnusedFilename_null_means_no_buckets fuel metadata st st' :
  quiescent ->
  GetUnusedFilename fuel metadata st = Some (None, st') ->
  fst (Exists "/iTunes_Control/Music/F00" st) = false
  /\ trace st'
     = (trace st ++ [EvGetFileInfo "/iTunes_Control/Music/F00";
                     EvWarning no_musicdirs_warning])%list.
Proof.
  intros Hq H. unfold GetUnusedFilename in H.
  destruct (count_musicdirs fuel 0 st) as [[N st1]|] eqn:Hc; [|discriminate].
  destruct (count_musicdirs_first_gap fuel Hq 0 st N st1 Hc)
    as [Hd [Hle [Hall Hlast]]].
  destruct (count_musicdirs_probes fuel 0 st N st1 Hc) as [_ [_ Ht]].
  unfold pick_and_name in H. destruct (Z.leb_spec N 0) as [HN | HN].
  - assert (N = 0) by lia. subst N. injection H as <-.
    split; [exact Hlast|]. cbn [qWarning snd emit trace]. rewrite Ht.
    cbn. now rewrite <- app_assoc.
  - exfalso. rewrite call_qrand_run in H.
    set (r := Z.of_N _) in H. set (st2 := mkState _ _ _ _) in H.
    assert (Hr : 0 <= Z.rem r N < N)
      by (apply Z.rem_bound_pos; [apply N2Z.is_nonneg | assumption]).
    assert (He : fst (Exists (musicdir (Z.rem r N)) st2) = true).
    { rewrite (Exists_same_device _ st2 st) by exact Hd. now apply Hall. }
    destruct (Exists (musicdir (Z.rem r N)) st2) as [e st3].
    cbn [fst] in He. subst e. cbn [negb] in H.
    destruct (find_unused _ _ _ _) as [[fname st4]|]; discriminate.
Qed.

(** X8.  A run that returns a path consists of the [N + 1] probes of the
    counting loop, one draw and the re-check of the chosen directory, and
    then one draw and one probe per candidate, the last candidate being the
    one returned: no directory is read and no warning is logged. *)
Theorem GetUnusedFilename_requests fuel metadata st path st' :
  GetUnusedFilename fuel metadata st = Some (Some path, st') ->
  exists N dir_num ns n,
    0 <= dir_num < N
    /\ 0 <= n < kRandMax
    /\ path = musicdir dir_num ++ "/" ++ candidate n (extension_of metadata)
    /\ trace st'
       = (trace st
          ++ probe_events N
          ++ [EvQRand; EvGetFileInfo (musicdir dir_num)]
          ++ draw_events (musicdir dir_num) (extension_of metadata)
                         (ns ++ [n]))%list.
Proof.
  intro H. unfold GetUnusedFilename in H.
  destruct (count_musicdirs fuel 0 st) as [[N st1]|] eqn:Hc; [|discriminate].
  destruct (count_musicdirs_probes fuel 0 st N st1 Hc) as [_ [_ Ht]].
  unfold pick_and_name in H. destruct (Z.leb_spec N 0) as [HN | HN];
    [discriminate|].
  rewrite call_qrand_run in H.
  set (r := Z.of_N _) in H. set (st2 := mkState _ _ _ _) in H.
  assert (Hr : 0 <= Z.rem r N < N)
    by (apply Z.rem_bound_pos; [apply N2Z.is_nonneg | assumption]).
  set (dir := musicdir (Z.rem r N)) in H.
  pose proof (Exists_trace dir st2) as [Ht3 _].
  destruct (Exists dir st2) as [e st3]. cbn [snd] in Ht3.
  destruct e; [|discriminate]. cbn [negb] in H.
  destruct (find_unused _ _ _ _) as [[fname st4]|] eqn:Hf; [|discriminate].
  apply find_unused_requests in Hf. destruct Hf as [ns [n [Hn [-> Ht4]]]].
  injection H as <- <-. exists N, (Z.rem r N), ns, n.
  split; [assumption|]. split; [assumption|]. split; [reflexivity|].
  rewrite Ht4, Ht3. subst st2. cbn [trace]. rewrite Ht.
  unfold probe_events. rewrite Z.sub_0_r. fold dir.
  rewrite <- !app_assoc. reflexivity.
Qed.

(** X9.  On a device that metadata requests leave unchanged, a returned
    path lies directly in a bucket directory that [Exists] reports present
    in the state the call returns in. *)
Theorem GetUnusedFilename_in_existing_bucket fuel metadata st path st' :
  quiescent ->
  GetUnusedFilename fuel metadata st = Some (Some path, st') ->
  exists dir_num n,
    path = musicdir dir_num ++ "/" ++ candidate n (extension_of metadata)
    /\ fst (Exists (musicdir dir_num) st') = true.
Proof.
  intros Hq H. unfold GetUnusedFilename in H.
  destruct (count_musicdirs fuel 0 st) as [[N st1]|] eqn:Hc; [|discriminate].
  unfold pick_and_name in H. destruct (N <=? 0); [discriminate|].
  rewrite call_qrand_run in H.
  set (r := Z.of_N _) in H. set (st2 := mkState _ _ _ _) in H.
  set (dir_num := Z.rem r N) in H.
  destruct (Exists (musicdir dir_num) st2) as [e st3] eqn:He.
  destruct e; [|discriminate]. cbn [negb] in H.
  pose proof (Exists_quiescent (musicdir dir_num) st2 Hq) as Hd3.
  rewrite He in Hd3. cbn [snd] in Hd3.
  destruct (find_unused _ _ _ _) as [[fname st4]|] eqn:Hf; [|discriminate].
  assert (Hd4 : dev st4 = dev st3).
  { clear - Hq Hf. revert st3 Hf.
    generalize (extension_of metadata) as ext. generalize (musicdir dir_num).
    induction fuel as [|fuel IH]; intros d ext st3 Hf; [discriminate|].
    cbn [find_unused] in Hf. rewrite call_qrand_run in Hf.
    match type of Hf with
    | context [Exists ?p ?s] =>
        pose proof (Exists_quiescent p s Hq) as Hd;
        destruct (Exists p s) as [e s2]
    end.
    cbn [snd dev] in Hd. destruct e; cbn [negb] in Hf.
    - apply IH in Hf. congruence.
    - injection Hf as _ <-. exact Hd. }
  apply find_unused_candidate in Hf. destruct Hf as [n [_ ->]].
  injection H as <- <-. exists dir_num, n. split; [reflexivity|].
  rewrite (Exists_same_device _ st4 st2) by congruence. now rewrite He.
Qed.

End AllocationExtras.

(** ** The choice of the bucket *)

Lemma bucket_hits_closed N i :
  0 < N -> 0 <= i < N ->
  forall M,
    Z.of_nat (bucket_hits M N i)
    = Z.of_nat M / N + (if i <? Z.of_nat M mod N then 1 else 0).
Proof.
  intros HN Hi M. induction M as [|m IH].
  - cbn [bucket_hits]. rewrite Z.div_0_l, Z.mod_0_l by lia.
    destruct (Z.ltb_spec i 0); lia.
  - cbn [bucket_hits]. rewrite Nat2Z.inj_add, IH. unfold bucket_index.
    rewrite Z.rem_mod_nonneg by lia.
    rewrite Nat2Z.inj_succ. unfold Z.succ.
    pose proof (Z.div_mod (Z.of_nat m) N ltac:(lia)) as Hdm.
    pose proof (Z.mod_pos_bound (Z.of_nat m) N HN) as Hb.
    set (q := Z.of_nat m / N) in *. set (t := Z.of_nat m mod N) in *.
    destruct (Z.lt_ge_cases (t + 1) N) as [Hlt | Hge].
    + rewrite <- (Z.div_unique (Z.of_nat m + 1) N q (t + 1)) by lia.
      rewrite <- (Z.mod_unique (Z.of_nat m + 1) N q (t + 1)) by lia.
      destruct (Z.ltb_spec i t), (Z.eqb_spec t i), (Z.ltb_spec i (t + 1));
        try lia; reflexivity.
    + rewrite <- (Z.div_unique (Z.of_nat m + 1) N (q + 1) 0) by lia.
      rewrite <- (Z.mod_unique (Z.of_nat m + 1) N (q + 1) 0) by lia.
      destruct (Z.ltb_spec i t), (Z.eqb_spec t i), (Z.ltb_spec i 0);
        try lia; reflexivity.
Qed.

Lemma bucket_hits_balanced N i j :
  0 < N -> 0 <= i < N -> 0 <= j < N ->
  forall M,
    (bucket_hits M N i <= bucket_hits M N j + 1)%nat
    /\ (Z.of_nat M mod N = 0 -> bucket_hits M N i = bucket_hits M N j).
Proof.
  intros HN Hi Hj M.
  pose proof (bucket_hits_closed N i HN Hi M) as Ei.
  pose proof (bucket_hits_closed N j HN Hj M) as Ej.
  split.
  - destruct (i <? _), (j <? _); lia.
  - intro H0. rewrite H0 in Ei, Ej.
    destruct (Z.ltb_spec i 0), (Z.ltb_spec j 0); lia.
Qed.

Section BucketChoice.
Context `{P : Platform}.

(** C6, as amended.  Once the counting loop has found [N > 0] directories,
    the bucket index is the generator's next value reduced modulo [N]: it
    lies in [0, N), and of any [K] generator values [0 .. K-1] the numbers
    that lead to two buckets differ by at most one and are equal when [N]
    divides [K].  Every run that finishes has drawn that value and probed
    the chosen directory again; it returns the null string exactly when
    that probe reports the directory absent, and then with the
    missing-directory warning; a path it returns lies in the chosen
    directory. *)
Theorem GetUnusedFilename_bucket_choice fuel metadata st N st1 :
  count_musicdirs fuel 0 st = Some (N, st1) ->
  0 < N ->
  let dir_num := bucket_index (fst (call_qrand st1)) N in
  let dir := musicdir dir_num in
  let st2 := snd (call_qrand st1) in
  let st3 := snd (Exists dir st2) in
  0 <= dir_num < N
  /\ (forall K i j,
         0 <= i < N -> 0 <= j < N ->
         (bucket_hits K N i <= bucket_hits K N j + 1)%nat
         /\ (Z.of_nat K mod N = 0 -> bucket_hits K N i = bucket_hits K N j))
  /\ (GetUnusedFilename fuel metadata st
      = Some (None, snd (qWarning (missing_musicdir_warning dir) st3))
      <-> fst (Exists dir st2) = false)
  /\ (forall res st',
         GetUnusedFilename fuel metadata st = Some (res, st') ->
         (exists rest,
             trace st'
             = (trace st1 ++ [EvQRand; EvGetFileInfo dir] ++ rest)%list)
         /\ (res = None <-> fst (Exists dir st2) = false)
         /\ (forall path,
                res = Some path ->
                exists n,
                  path = dir ++ "/" ++ candidate n (extension_of metadata))).
Proof.
  intros Hc HN. cbv zeta. unfold GetUnusedFilename. rewrite Hc.
  unfold pick_and_name, bucket_index. apply Z.leb_gt in HN as HN'.
  rewrite HN'. rewrite call_qrand_run. cbn [fst snd].
  set (r := Z.of_N _). set (st2 := mkState _ _ _ _).
  assert (Hr : 0 <= Z.rem r N < N)
    by (apply Z.rem_bound_pos; [apply N2Z.is_nonneg | assumption]).
  set (dir := musicdir (Z.rem r N)).
  pose proof (Exists_trace dir st2) as [Ht3 _].
  destruct (Exists dir st2) as [e st3]. cbn [fst snd] in *.
  assert (Ht : trace st3
               = (trace st1 ++ [EvQRand; EvGetFileInfo dir])%list)
    by (rewrite Ht3; subst st2; cbn [trace]; now rewrite <- app_assoc).
  split; [assumption|].
  split; [intros K i j Hi Hj; now apply bucket_hits_balanced|].
  destruct e; cbn [negb].
  - destruct (find_unused fuel dir (extension_of metadata) st3)
      as [[fname st4]|] eqn:Hf.
    + split; [split; discriminate|].
      intros res st' H. injection H as <- <-.
      apply find_unused_requests in Hf. destruct Hf as [ns [n [_ [-> Ht4]]]].
      split; [|split].
      * eexists. rewrite Ht4, Ht, <- app_assoc. reflexivity.
      * split; discriminate.
      * intros path Hp. injection Hp as <-. now exists n.
    + split; [split; discriminate|]. intros res st' H. discriminate.
  - split; [split; reflexivity|].
    intros res st' H. injection H as <- <-. split; [|split].
    + exists [EvWarning (missing_musicdir_warning dir)].
      cbn [qWarning snd emit trace]. rewrite Ht, <- app_assoc. reflexivity.
    + split; reflexivity.
    + intros path Hp. discriminate.
Qed.

End BucketChoice.

(** C6, the claim as worded.  With the 32768 values of a generator whose
    largest value is 32767 and three directories, the buckets are not
    reached from equally many values: the choice [qrand() % 3] is not
    uniform. *)
Lemma bucket_choice_not_uniform : ~ uniform_choice (Z.to_nat 32768) 3.
Proof.
  intro H. specialize (H 0 2 ltac:(lia) ltac:(lia)).
  apply (f_equal Z.of_nat) in H.
  rewrite !bucket_hits_closed in H by lia.
  rewrite Z2Nat.id in H by lia. vm_compute in H. discriminate.
Qed.

(** ** Extensions and generated names *)

From Stdlib Require DecimalN.

Lemma split_single_no_sep sep s :
  split sep s = [s] <-> ~ In sep (list_ascii_of_string s).
Proof.
  induction s as [|c s IH]; cbn [list_ascii_of_string In].
  - split; [intros _ [] | reflexivity].
  - split.
    + intro H. apply split_single_inv in H. destruct H as [Hc Hs].
      intros [-> | Hin]; [now rewrite Ascii.eqb_refl in Hc|].
      now apply IH in Hs.
    + intro H. apply split_single_cons.
      * destruct (Ascii.eqb_spec c sep) as [-> |]; [|reflexivity].
        exfalso. apply H. now left.
      * apply IH. intro Hin. apply H. now right.
Qed.

Lemma toLower_char_idem c : toLower_char (toLower_char c) = toLower_char c.
Proof. destruct c as [[] [] [] [] [] [] [] []]; reflexivity. Qed.

Lemma toLower_idem s : toLower (toLower s) = toLower s.
Proof.
  induction s as [|c s IH]; [reflexivity|].
  cbn [toLower]. now rewrite toLower_char_idem, IH.
Qed.

Lemma toLower_isEmpty s : isEmpty (toLower s) = isEmpty s.
Proof. now destruct s. Qed.

Lemma section_last_whole sep s :
  split sep s = [s] -> section sep (-1) (-1) s = s.
Proof. intro H. now rewrite section_last, H. Qed.

Lemma string_length_app a b :
  String.length (a ++ b) = (String.length a + String.length b)%nat.
Proof. induction a as [|c a IH]; cbn; [reflexivity|now rewrite IH]. Qed.

Lemma string_app_inv_head a x y : a ++ x = a ++ y -> x = y.
Proof.
  induction a as [|c a IH]; cbn; [trivial|]. intro H. injection H as H. auto.
Qed.

Lemma string_app_inv_tail s : forall x y, x ++ s = y ++ s -> x = y.
Proof.
  induction x as [|c x IH]; intros [|d y] H; cbn in H.
  - reflexivity.
  - apply (f_equal String.length) in H. cbn in H.
    rewrite string_length_app in H. lia.
  - apply (f_equal String.length) in H. cbn in H.
    rewrite string_length_app in H. lia.
  - injection H as -> H. f_equal. now apply IH.
Qed.

Lemma uint_of_string_zeros k s :
  NilEmpty.uint_of_string (zeros k s)
  = option_map (Nat.iter k Decimal.D0) (NilEmpty.uint_of_string s).
Proof.
  induction k as [|k IH]; cbn [zeros Nat.iter].
  - now destruct (NilEmpty.uint_of_string s).
  - cbn [NilEmpty.uint_of_string]. rewrite IH.
    now destruct (NilEmpty.uint_of_string s).
Qed.

Lemma of_uint_iter_D0 k d :
  N.of_uint (Nat.iter k Decimal.D0 d) = N.of_uint d.
Proof. induction k as [|k IH]; [reflexivity|]. cbn [Nat.iter]. exact IH. Qed.

Lemma read_decimal_decimal n :
  0 <= n -> read_decimal (decimal n) = Some n.
Proof.
  intro Hn. unfold read_decimal, decimal, NilZero.string_of_uint.
  pose proof (DecimalN.Unsigned.of_to (Z.to_N n)) as Hof.
  destruct (N.to_uint (Z.to_N n)) eqn:Hd;
    [cbn; cbn in Hof; f_equal; lia | ..];
    rewrite NilEmpty.usu; cbn [option_map]; rewrite Hof; f_equal; lia.
Qed.

Lemma read_decimal_format_0d width n :
  0 <= n -> read_decimal (format_0d width n) = Some n.
Proof.
  intro Hn. unfold format_0d. destruct (Z.ltb_spec n 0) as [|_]; [lia|].
  pose proof (read_decimal_decimal n Hn) as H. unfold read_decimal in *.
  rewrite uint_of_string_zeros.
  destruct (NilEmpty.uint_of_string (decimal n)) as [d|]; [|discriminate].
  cbn [option_map] in *. now rewrite of_uint_iter_D0.
Qed.

(** X11.  The extension [GetUnusedFilename] appends is never empty, holds
    no dot and is in lower case already. *)
Theorem extension_of_wellformed metadata :
  extension_of metadata <> EmptyString
  /\ ~ In "."%char (list_ascii_of_string (extension_of metadata))
  /\ toLower (extension_of metadata) = extension_of metadata.
Proof.
  split; [|split].
  - unfold extension_of. destruct (isEmpty _) eqn:He; [discriminate|].
    intro H. rewrite H in He. discriminate.
  - apply split_single_no_sep, extension_of_single.
  - unfold extension_of. destruct (isEmpty _); [reflexivity|].
    apply toLower_idem.
Qed.

(** X12.  How the extension follows from the song's file name: the
    lower-cased text after the last dot when that text is not empty; [mp3]
    when the name is empty or ends in a dot; and, when the name holds no
    dot at all, the whole lower-cased name (directories included). *)
Theorem extension_of_cases metadata :
  (forall base e,
      filename metadata = base ++ String "." e ->
      ~ In "."%char (list_ascii_of_string e) ->
      extension_of metadata = if isEmpty e then "mp3" else toLower e)
  /\ (~ In "."%char (list_ascii_of_string (filename metadata)) ->
      extension_of metadata
      = if isEmpty (filename metadata) then "mp3"
        else toLower (filename metadata)).
Proof.
  unfold extension_of. split.
  - intros base e Hf He. apply split_single_no_sep in He.
    rewrite Hf, (section_last_app "." base e He).
    now rewrite toLower_isEmpty.
  - intro Hn. apply split_single_no_sep in Hn.
    rewrite (section_last_whole "." _ Hn). now rewrite toLower_isEmpty.
Qed.

(** X13.  Generated names can be told apart: two bucket indices give the
    same directory path only when they are equal, also beyond two digits,
    and two candidate numbers give the same file name only when they are
    equal. *)
Theorem musicdir_candidate_injective a b :
  0 <= a -> 0 <= b ->
  (musicdir a = musicdir b -> a = b)
  /\ (forall extension,
         candidate a extension = candidate b extension -> a = b).
Proof.
  intros Ha Hb.
  assert (Hinj : forall w, format_0d w a = format_0d w b -> a = b).
  { intros w H. apply (f_equal read_decimal) in H.
    rewrite !read_decimal_format_0d in H by assumption. now injection H. }
  split.
  - unfold musicdir. intro H. apply string_app_inv_head in H. eauto.
  - unfold candidate. intros e H. apply string_app_inv_tail in H.
    apply string_app_inv_head in H. eauto.
Qed.

(** *** How many digits a number prints with *)

From Stdlib Require DecimalFacts DecimalPos Nnat.

Lemma of_uint_acc_bounds l :
  forall acc,
    (N.pos acc * 10 ^ N.of_nat (Decimal.nb_digits l)
     <= N.pos (Pos.of_uint_acc l acc)
     < (N.pos acc + 1) * 10 ^ N.of_nat (Decimal.nb_digits l))%N.
Proof.
  induction l as [|l IH|l IH|l IH|l IH|l IH|l IH|l IH|l IH|l IH|l IH];
    intro acc; cbn [Pos.of_uint_acc Decimal.nb_digits];
    [rewrite N.pow_0_r; lia | ..];
    rewrite Nnat.Nat2N.inj_succ, N.pow_succ_r';
    match goal with
    | |- context [Pos.of_uint_acc l ?a] => specialize (IH a)
    end;
    set (p := (10 ^ N.of_nat (Decimal.nb_digits l))%N) in *; nia.
Qed.

Lemma of_uint_bounds d :
  d <> Decimal.Nil -> (forall d', d <> Decimal.D0 d') ->
  (10 ^ N.of_nat (Decimal.nb_digits d - 1) <= N.of_uint d
   < 10 ^ N.of_nat (Decimal.nb_digits d))%N.
Proof.
  intros Hnil Hd0.
  destruct d as [|l|l|l|l|l|l|l|l|l|l];
    [contradiction | exfalso; now apply (Hd0 l) | ..];
    cbn [N.of_uint Pos.of_uint Decimal.nb_digits];
    rewrite Nat.sub_succ, Nat.sub_0_r, Nnat.Nat2N.inj_succ, N.pow_succ_r';
    match goal with
    | |- context [Pos.of_uint_acc l ?a] =>
        pose proof (of_uint_acc_bounds l a) as H
    end;
    set (p := (10 ^ N.of_nat (Decimal.nb_digits l))%N) in *; nia.
Qed.

Lemma string_of_uint_length d :
  String.length (NilEmpty.string_of_uint d) = Decimal.nb_digits d.
Proof. induction d; cbn; congruence. Qed.

Lemma to_uint_leading p :
  Pos.to_uint p <> Decimal.Nil /\ forall d', Pos.to_uint p <> Decimal.D0 d'.
Proof.
  split; [apply DecimalPos.Unsigned.to_uint_nonnil|]. intros d' H.
  pose proof (DecimalPos.Unsigned.to_of (Pos.to_uint p)) as Hn.
  rewrite DecimalPos.Unsigned.of_to in Hn. cbn [N.to_uint] in Hn.
  pose proof (DecimalPos.Unsigned.to_uint_nonzero p) as Hz.
  assert (Hne : Decimal.nzhead (Pos.to_uint p) <> Decimal.Nil).
  { intro E. apply DecimalFacts.unorm_0 in E. congruence. }
  apply DecimalFacts.unorm_nzhead in Hne.
  apply (DecimalFacts.nzhead_nonzero (Pos.to_uint p) d'). congruence.
Qed.

Lemma decimal_digits n :
  0 <= n ->
  (n = 0 /\ String.length (decimal n) = 1%nat)
  \/ 10 ^ (Z.of_nat (String.length (decimal n)) - 1) <= n
     < 10 ^ Z.of_nat (String.length (decimal n)).
Proof.
  intro Hn. unfold decimal. destruct (Z.to_N n) as [|p] eqn:Hp.
  - left. split; [lia | reflexivity].
  - right. cbn [N.to_uint]. destruct (to_uint_leading p) as [Hnil Hd0].
    pose proof (of_uint_bounds _ Hnil Hd0) as Hb.
    rewrite DecimalPos.Unsigned.of_to in Hb.
    assert (Hs : NilZero.string_of_uint (Pos.to_uint p)
                 = NilEmpty.string_of_uint (Pos.to_uint p))
      by (unfold NilZero.string_of_uint; now destruct (Pos.to_uint p)).
    rewrite Hs, string_of_uint_length.
    assert (Hpos : (1 <= Decimal.nb_digits (Pos.to_uint p))%nat)
      by (destruct (Pos.to_uint p); [contradiction | cbn; lia ..]).
    replace n with (Z.of_N (N.pos p)) by lia.
    replace (Z.of_nat (Decimal.nb_digits (Pos.to_uint p)) - 1)
      with (Z.of_N (N.of_nat (Decimal.nb_digits (Pos.to_uint p) - 1))) by lia.
    replace (Z.of_nat (Decimal.nb_digits (Pos.to_uint p)))
      with (Z.of_N (N.of_nat (Decimal.nb_digits (Pos.to_uint p)))) at 2 by lia.
    change 10 with (Z.of_N 10). rewrite <- !N2Z.inj_pow. lia.
Qed.

Lemma decimal_length_le n k :
  0 <= n -> (1 <= k)%nat ->
  ((String.length (decimal n) <= k)%nat <-> n < 10 ^ Z.of_nat k).
Proof.
  intros Hn Hk. destruct (decimal_digits n Hn) as [[-> Hl] | Hb].
  - rewrite Hl. split; [intros _; now apply Z.pow_pos_nonneg; lia | lia].
  - set (L := String.length (decimal n)) in *. split.
    + intro H. apply Z.lt_le_trans with (10 ^ Z.of_nat L); [lia|].
      apply Z.pow_le_mono_r; lia.
    + intro H. destruct (Nat.le_gt_cases L k) as [|Hgt]; [assumption|].
      exfalso.
      assert (10 ^ Z.of_nat k <= 10 ^ (Z.of_nat L - 1))
        by (apply Z.pow_le_mono_r; lia).
      lia.
Qed.

Lemma zeros_length k s :
  String.length (zeros k s) = (k + String.length s)%nat.
Proof. induction k as [|k IH]; cbn; [reflexivity | now rewrite IH]. Qed.

Lemma format_0d_length width n :
  0 <= n ->
  String.length (format_0d width n)
  = Nat.max width (String.length (decimal n)).
Proof.
  intro Hn. unfold format_0d. destruct (Z.ltb_spec n 0); [lia|].
  rewrite zeros_length. lia.
Qed.

(** X14.  A bucket index prints as [F] and exactly two digits precisely
    when it is below 100 (a larger index makes the path longer), and a
    candidate name is always [libgpod], exactly six digits, a dot and the
    extension. *)
Theorem generated_name_widths n :
  0 <= n ->
  (String.length (musicdir n) = 25%nat <-> n < 100)
  /\ (n < kRandMax ->
      forall extension,
        String.length (candidate n extension)
        = (14 + String.length extension)%nat).
Proof.
  intro Hn. pose proof (decimal_digits n Hn) as Hdig. split.
  - unfold musicdir. rewrite string_length_app, format_0d_length by assumption.
    change (String.length "/iTunes_Control/Music/F") with 23%nat.
    rewrite <- (decimal_length_le n 2 Hn) by lia. lia.
  - intros Hk e. unfold candidate.
    rewrite !string_length_app, format_0d_length by assumption.
    assert (Hl : (String.length (decimal n) <= 6)%nat).
    { apply (decimal_length_le n 6 Hn); [lia|]. unfold kRandMax in Hk.
      change (10 ^ Z.of_nat 6) with 1000000. lia. }
    cbn [String.length]. lia.
Qed.

(** ** Opening and closing the connection *)

Section LifetimeProperties.
Context `{Sv : Services}.

Lemma constructor_members uuid label :
  let e1 := fst (idevice_new uuid) in
  let device := snd (idevice_new uuid) in
  let e2 := fst (lockdownd_client_new_with_handshake device label) in
  let lockdown := snd (lockdownd_client_new_with_handshake device label) in
  let e3 := fst (lockdownd_start_service lockdown "com.apple.afc") in
  let port := snd (lockdownd_start_service lockdown "com.apple.afc") in
  let afc := snd (afc_client_new device port) in
  fst (iMobileDeviceConnection_new uuid label)
  = {| device_ := device;
       lockdown_ := if e1 =? 0 then lockdown else None;
       afc_ := if (e1 =? 0) && (e2 =? 0) && (e3 =? 0) then afc else None;
       afc_port_ := if (e1 =? 0) && (e2 =? 0) then port else 0;
       broken_ := false |}.
Proof.
  cbv zeta. unfold iMobileDeviceConnection_new.
  unfold IDEVICE_E_SUCCESS, LOCKDOWN_E_SUCCESS.
  destruct (idevice_new uuid) as [e1 device]. cbn [fst snd].
  destruct (e1 =? 0); cbn [negb andb fst snd]; [|reflexivity].
  destruct (lockdownd_client_new_with_handshake device label) as [e2 lockdown].
  cbn [fst snd].
  destruct (e2 =? 0); cbn [negb andb fst snd]; [|reflexivity].
  destruct (lockdownd_start_service lockdown "com.apple.afc") as [e3 port].
  cbn [fst snd].
  destruct (e3 =? 0); cbn [negb andb fst snd]; [|reflexivity].
  destruct (afc_client_new device port) as [e4 afc]. cbn [fst snd].
  now destruct (e4 =? 0).
Qed.

(** X15.  The constructor makes its four calls in order and stops at the
    first that reports an error, logging one warning with that call's text
    and error code; its log is exactly that.  The members then hold what
    the calls reached handed out: the device always, the lockdown client
    if [idevice_new] succeeded, the port if the handshake succeeded too,
    the AFC client if the service start succeeded as well; [broken_] is
    false.  This holds for every [label]. *)
Theorem constructor_stops_at_first_failure uuid label :
  let e1 := fst (idevice_new uuid) in
  let device := snd (idevice_new uuid) in
  let e2 := fst (lockdownd_client_new_with_handshake device label) in
  let lockdown := snd (lockdownd_client_new_with_handshake device label) in
  let e3 := fst (lockdownd_start_service lockdown "com.apple.afc") in
  let port := snd (lockdownd_start_service lockdown "com.apple.afc") in
  let e4 := fst (afc_client_new device port) in
  let afc := snd (afc_client_new device port) in
  snd (iMobileDeviceConnection_new uuid label)
  = until_first_failure
      [(Call_idevice_new uuid, e1, "idevice error:");
       (Call_lockdownd_client_new_with_handshake device label, e2,
        "lockdown error:");
       (Call_lockdownd_start_service lockdown "com.apple.afc", e3,
        "lockdown error:");
       (Call_afc_client_new device port, e4, "afc error:")]
  /\ fst (iMobileDeviceConnection_new uuid label)
     = {| device_ := device;
          lockdown_ := if e1 =? 0 then lockdown else None;
          afc_ := if (e1 =? 0) && (e2 =? 0) && (e3 =? 0) then afc else None;
          afc_port_ := if (e1 =? 0) && (e2 =? 0) then port else 0;
          broken_ := false |}.
Proof.
  cbv zeta. unfold iMobileDeviceConnection_new, until_first_failure.
  unfold IDEVICE_E_SUCCESS, LOCKDOWN_E_SUCCESS.
  destruct (idevice_new uuid) as [e1 device]. cbn [fst snd].
  destruct (e1 =? 0); cbn [negb andb fst snd]; [|split; reflexivity].
  destruct (lockdownd_client_new_with_handshake device label) as [e2 lockdown].
  cbn [fst snd].
  destruct (e2 =? 0); cbn [negb andb fst snd]; [|split; reflexivity].
  destruct (lockdownd_start_service lockdown "com.apple.afc") as [e3 port].
  cbn [fst snd].
  destruct (e3 =? 0); cbn [negb andb fst snd]; [|split; reflexivity].
  destruct (afc_client_new device port) as [e4 afc]. cbn [fst snd].
  destruct (e4 =? 0); cbn [negb]; split; reflexivity.
Qed.

(** X16.  Wherever the constructor stopped, the destructor gives back what
    the calls reached handed out, each handle once and to the free
    function of its own kind: the AFC client first, then the lockdown
    client, then the device. *)
Theorem destructor_releases_what_was_obtained uuid label :
  iMobileDeviceConnection_delete (fst (iMobileDeviceConnection_new uuid label))
  = map free_call (obtained uuid label).
Proof.
  pose proof (constructor_members uuid label) as Hm. cbv zeta in Hm.
  rewrite Hm. unfold iMobileDeviceConnection_delete, obtained.
  cbn [afc_ lockdown_ device_ broken_ negb].
  destruct (idevice_new uuid) as [e1 device]. cbn [fst snd].
  destruct (lockdownd_client_new_with_handshake device label) as [e2 lockdown].
  cbn [fst snd].
  destruct (lockdownd_start_service lockdown "com.apple.afc") as [e3 port].
  cbn [fst snd].
  destruct (afc_client_new device port) as [e4 afc]. cbn [fst snd].
  destruct ((e1 =? 0) && (e2 =? 0) && (e3 =? 0)), (e1 =? 0);
    destruct afc, lockdown, device; reflexivity.
Qed.

End LifetimeProperties.

Example constructor_refused_handshake :
  iMobileDeviceConnection_new (Sv := Demo2.refused) "uuid" "Clementine"
  = ({| device_ := Some 1%nat; lockdown_ := None; afc_ := None;
        afc_port_ := 0; broken_ := false |},
     [Call_idevice_new "uuid";
      Call_lockdownd_client_new_with_handshake (Some 1%nat) "Clementine";
      Warned "lockdown error:" (-2)])
  /\ iMobileDeviceConnection_delete
       (fst (iMobileDeviceConnection_new (Sv := Demo2.refused)
               "uuid" "Clementine"))
     = [Call_idevice_free 1%nat].
Proof. split; reflexivity. Qed.

Example constructor_working :
  snd (iMobileDeviceConnection_new (Sv := Demo2.working)
         "uuid" "Clementine")
  = [Call_idevice_new "uuid";
     Call_lockdownd_client_new_with_handshake (Some 1%nat) "Clementine";
     Call_lockdownd_start_service (Some 2%nat) "com.apple.afc";
     Call_afc_client_new (Some 1%nat) 62078]
  /\ iMobileDeviceConnection_delete
       (fst (iMobileDeviceConnection_new (Sv := Demo2.working)
               "uuid" "Clementine"))
     = [Call_afc_client_free 3%nat; Call_lockdownd_client_free 2%nat;
        Call_idevice_free 1%nat].
Proof. split; reflexivity. Qed.

(** ** The further properties at work *)

Module Witness2.
Import Demo Demo2.

Lemma blank_quiescent : quiescent (P := blank).
Proof. intros d p. reflexivity. Defined.

Lemma GetUnusedFilename_bucket_choice_witness :
  GetUnusedFilename (P := fading) 5 track fading0
  = Some (None,
          @mkState fading 4%nat []
            [EvGetFileInfo "/iTunes_Control/Music/F00";
             EvGetFileInfo "/iTunes_Control/Music/F01";
             EvGetFileInfo "/iTunes_Control/Music/F02";
             EvQRand;
             EvGetFileInfo "/iTunes_Control/Music/F01";
             EvWarning (missing_musicdir_warning "/iTunes_Control/Music/F01")])
  /\ exists n,
       "/iTunes_Control/Music/F01/libgpod000012.ogg"
       = musicdir 1 ++ "/" ++ candidate n (extension_of track).
Proof.
  split.
  - destruct (GetUnusedFilename_bucket_choice (P := fading) 5 track fading0 2
                (@mkState fading 3%nat [5%N]
                   [EvGetFileInfo "/iTunes_Control/Music/F00";
                    EvGetFileInfo "/iTunes_Control/Music/F01";
                    EvGetFileInfo "/iTunes_Control/Music/F02"])
                eq_refl eq_refl)
      as [_ [_ [Hiff _]]].
    apply Hiff. reflexivity.
  - destruct (GetUnusedFilename_bucket_choice (P := still) 5 track still0 2
                (@mkState still tt [3; 7; 1000006; 12]%N
                   [EvGetFileInfo "/iTunes_Control/Music/F00";
                    EvGetFileInfo "/iTunes_Control/Music/F01";
                    EvGetFileInfo "/iTunes_Control/Music/F02"])
                eq_refl eq_refl)
      as [_ [_ [_ Hrun]]].
    destruct (Hrun (Some "/iTunes_Control/Music/F01/libgpod000012.ogg")
                (@mkState still tt []
                   [EvGetFileInfo "/iTunes_Control/Music/F00";
                    EvGetFileInfo "/iTunes_Control/Music/F01";
                    EvGetFileInfo "/iTunes_Control/Music/F02"; EvQRand;
                    EvGetFileInfo "/iTunes_Control/Music/F01"; EvQRand;
                    EvGetFileInfo
                      "/iTunes_Control/Music/F01/libgpod000007.ogg";
                    EvQRand;
                    EvGetFileInfo
                      "/iTunes_Control/Music/F01/libgpod000007.ogg";
                    EvQRand;
                    EvGetFileInfo
                      "/iTunes_Control/Music/F01/libgpod000012.ogg"])
                eq_refl)
      as [_ [_ Hpath]].
    exact (Hpath _ eq_refl).
Defined.

Lemma GetFileInfo_last_pair_witness :
  fst (GetFileInfo (P := repeating) "/any" "st_ifmt" repeating0)
  = Some "S_IFDIR".
Proof.
  apply (GetFileInfo_last_pair (P := repeating) "/any" "st_ifmt" repeating0
           eq_refl
           ["st_ifmt"; "S_IFREG"; "st_size"; "st_ifmt";
            "st_ifmt"; "S_IFDIR"; "st_ifmt"]).
  reflexivity.
Defined.

Lemma ReadDirectory_hidden_and_dots_witness :
  startsWith "sub" "." = false /\ "sub" <> "." /\ "sub" <> "..".
Proof.
  destruct (ReadDirectory_hidden_and_dots (P := still) "/music" 0x1003 still0
              "sub") as [Hhid Hdot].
  - unfold QDir.NoFilter. lia.
  - vm_compute. right. left. reflexivity.
  - split; [apply Hhid | apply Hdot]; reflexivity.
Defined.

Lemma ReadDirectory_is_filter_witness :
  fst (ReadDirectory (P := still) "/music" 0x1103 still0)
  = filter (fun n =>
              survives 0x1103 n
              && accepts 0x1103
                   (fst (GetFileInfo (P := still) ("/music" ++ "/" ++ n)
                           "st_ifmt"
                           (snd (ReadDirectory (P := still) "/music" 0x1103
                                   still0)))))
           ["."; ".."; ".cache"; "a.mp3"; "sub"; "link"; "nofmt"; "ghost"].
Proof.
  apply (ReadDirectory_is_filter (P := still) "/music" 0x1103 still0).
  - exact Witness.still_quiescent.
  - unfold QDir.NoFilter. lia.
  - reflexivity.
  - reflexivity.
Defined.

Lemma count_musicdirs_stops_at_first_gap_witness :
  exists st1,
    count_musicdirs (P := still) 5 0 still0 = Some (2, st1)
    /\ (0 <= 2
        /\ (forall i, 0 <= i < 2 ->
                      fst (Exists (P := still) (musicdir i) st1) = true)
        /\ fst (Exists (P := still) (musicdir 2) st1) = false).
Proof.
  eexists. split.
  - vm_compute. reflexivity.
  - apply (count_musicdirs_stops_at_first_gap (P := still) 5 still0).
    + exact Witness.still_quiescent.
    + vm_compute. reflexivity.
Defined.

Lemma count_musicdirs_terminates_witness :
  exists st1,
    count_musicdirs (P := still) 3 0 still0 = Some (2, st1)
    /\ trace st1 = (trace still0 ++ probe_events 2)%list.
Proof.
  apply (count_musicdirs_terminates (P := still) 3 still0 2).
  - exact Witness.still_quiescent.
  - unfold INT_MAX. lia.
  - intros i Hi. assert (H : i = 0 \/ i = 1) by lia.
    destruct H as [-> | ->]; reflexivity.
  - reflexivity.
  - cbn. lia.
Defined.

Lemma GetUnusedFilename_null_means_no_buckets_witness :
  exists st',
    GetUnusedFilename (P := blank) 3 track blank0 = Some (None, st')
    /\ (fst (Exists (P := blank) "/iTunes_Control/Music/F00" blank0) = false
        /\ trace st'
           = (trace blank0 ++ [EvGetFileInfo "/iTunes_Control/Music/F00";
                               EvWarning no_musicdirs_warning])%list).
Proof.
  eexists. split.
  - vm_compute. reflexivity.
  - apply (GetUnusedFilename_null_means_no_buckets (P := blank) 3 track blank0).
    + exact blank_quiescent.
    + vm_compute. reflexivity.
Defined.

Lemma GetUnusedFilename_requests_witness :
  exists st',
    GetUnusedFilename (P := still) 5 track still0
    = Some (Some "/iTunes_Control/Music/F01/libgpod000012.ogg", st')
    /\ exists N dir_num ns n,
         0 <= dir_num < N
         /\ 0 <= n < kRandMax
         /\ "/iTunes_Control/Music/F01/libgpod000012.ogg"
            = musicdir dir_num ++ "/" ++ candidate n (extension_of track)
         /\ trace st'
            = (trace still0
               ++ probe_events N
               ++ [EvQRand; EvGetFileInfo (musicdir dir_num)]
               ++ draw_events (musicdir dir_num) (extension_of track)
                              (ns ++ [n]))%list.
Proof.
  eexists. split.
  - vm_compute. reflexivity.
  - apply (GetUnusedFilename_requests (P := still) 5 track still0).
    vm_compute. reflexivity.
Defined.

Lemma GetUnusedFilename_in_existing_bucket_witness :
  exists st',
    GetUnusedFilename (P := still) 5 track still0
    = Some (Some "/iTunes_Control/Music/F01/libgpod000012.ogg", st')
    /\ exists dir_num n,
         "/iTunes_Control/Music/F01/libgpod000012.ogg"
         = musicdir dir_num ++ "/" ++ candidate n (extension_of track)
         /\ fst (Exists (P := still) (musicdir dir_num) st') = true.
Proof.
  eexists. split.
  - vm_compute. reflexivity.
  - apply (GetUnusedFilename_in_existing_bucket (P := still) 5 track still0).
    + exact Witness.still_quiescent.
    + vm_compute. reflexivity.
Defined.

Lemma extension_of_cases_witness :
  extension_of dotted = "ogg" /\ extension_of readme = "/home/me/readme".
Proof.
  destruct (extension_of_cases dotted) as [Hdot _].
  destruct (extension_of_cases readme) as [_ Hnone].
  split.
  - apply (Hdot "/home/me/Track" "OGG"); [reflexivity|].
    cbn. intro H. repeat (destruct H as [H | H]; [discriminate|]). exact H.
  - apply Hnone.
    cbn. intro H. repeat (destruct H as [H | H]; [discriminate|]). exact H.
Defined.

Lemma musicdir_candidate_injective_witness :
  Z.rem 1000006 kRandMax = 7.
Proof.
  destruct (musicdir_candidate_injective (Z.rem 1000006 kRandMax) 7)
    as [_ Hcand]; [vm_compute; discriminate | lia |].
  apply (Hcand "ogg"). reflexivity.
Defined.

Lemma generated_name_widths_witness :
  String.length (musicdir 7) = 25%nat
  /\ String.length (candidate 12 "ogg") = 17%nat.
Proof.
  destruct (generated_name_widths 7) as [Hdir _]; [lia|].
  destruct (generated_name_widths 12) as [_ Hcand]; [lia|].
  split; [apply Hdir; lia | apply (Hcand eq_refl "ogg")].
Defined.

End Witness2.
